(** * LinesLengthJNDThreshold: adaptive 2AFC threshold session

    A shallow embedding of [LinesLengthJNDThreshold.py].  The module-level
    globals of the script ([root.counter], [choice], [lineA_length],
    [lineB_length], [NumCorrect], [Total], the Tk variable [Option] and the
    grid state of the widgets) are gathered in one record that every
    function receives and returns.  Calls to [random.choice] and
    [np.random.choice] produce finite distributions whose outcomes carry
    rational weights; an outcome is either a value or a raised Python
    exception.  The external fit [MLE_search] is a section variable.

    A finite Python float is the rational it denotes, and every float
    operation with a rounded result ([0.30*MaxTrials], [StimLevels - alpha],
    the divisions of [LinesCoordinates]) goes through [round_binary64],
    IEEE 754 round to nearest, ties to even.  The counts only receive sums
    of 1 and 0.5, which floats carry out exactly while they stay below
    [2^53].

    [HideLines] calls [root.update()], which dispatches the Tk events that
    are pending at that moment inside the running callback: radiobutton
    clicks and further presses of Next, each of which runs [NextCallback]
    to completion before the outer call resumes.  The events pending at an
    update are an argument of [NextCallback].  Drawing on the canvas, the
    0.2 s pause and the prints are not modelled; closing the window is
    outside the model. *)

From Stdlib Require Import String Ascii.
From Stdlib Require Import List ZArith QArith Qabs Bool Lia Lqa.
From Stdlib Require Import Relations FinFun.
Import ListNotations.

Local Open Scope Z_scope.

(** ** Python exceptions and outcomes *)

Inductive exn : Set :=
| IndexError
| ValueError
| OverflowError.

Inductive result (A : Type) : Type :=
| Ok (a : A)
| Raise (e : exn).

Arguments Ok {A} a.
Arguments Raise {A} e.

(** ** Finite distributions of outcomes *)

Module Dist.

Definition M (A : Type) : Type := list (Q * result A).

Definition ret {A} (a : A) : M A := [(1%Q, Ok a)].

Definition raise {A} (e : exn) : M A := [(1%Q, Raise e)].

Definition scale {B} (p : Q) (m : M B) : M B :=
  map (fun qr => (Qmult p (fst qr), snd qr)) m.

Definition bind {A B} (m : M A) (f : A -> M B) : M B :=
  flat_map (fun pr =>
              match snd pr with
              | Ok a => scale (fst pr) (f a)
              | Raise e => [(fst pr, Raise e)]
              end) m.

Definition lift {A} (r : result A) : M A := [(1%Q, r)].

(** Equal weight [1 / len l] on every position of [l]. *)
Definition uniform {A} (l : list A) : M A :=
  map (fun x => (1 # Pos.of_nat (length l), Ok x)%Q) l.

(** Probability that the outcome is a value satisfying [P]. *)
Fixpoint Pr {A} (m : M A) (P : A -> bool) : Q :=
  match m with
  | [] => 0%Q
  | (p, Ok a) :: t => if P a then Qplus p (Pr t P) else Pr t P
  | (_, Raise _) :: t => Pr t P
  end.

(** [a] is a possible value of [m]. *)
Definition yields {A} (m : M A) (a : A) : Prop :=
  exists p, In (p, Ok a) m.

(** No outcome of [m] is an exception. *)
Definition no_raise {A} (m : M A) : Prop :=
  forall p r, In (p, r) m -> exists a, r = Ok a.

End Dist.

Notation "x <- m ;; k" := (Dist.bind m (fun x => k))
  (at level 61, m at next level, right associativity).

(** ** The Python and NumPy primitives the script uses *)

(** [random.choice(seq)]: IndexError on an empty sequence. *)
Definition random_choice {A} (l : list A) : Dist.M A :=
  match l with
  | [] => Dist.raise IndexError
  | _ => Dist.uniform l
  end.

(** [np.random.choice(a)]: ValueError on an empty array. *)
Definition np_random_choice {A} (l : list A) : Dist.M A :=
  match l with
  | [] => Dist.raise ValueError
  | _ => Dist.uniform l
  end.

(** [range(n)] and [np.arange(lo, hi, 1)]. *)
Definition range (n : nat) : list Z := map Z.of_nat (seq 0 n).

Definition np_arange (lo hi : Z) : list Z :=
  map (fun k => lo + Z.of_nat k) (seq 0 (Z.to_nat (hi - lo))).

(** [l[i]] with Python's negative indices. *)
Definition getitem {A} (l : list A) (i : Z) : result A :=
  let n := Z.of_nat (length l) in
  let j := if i <? 0 then i + n else i in
  if (0 <=? j) && (j <? n) then
    match nth_error l (Z.to_nat j) with
    | Some x => Ok x
    | None => Raise IndexError
    end
  else Raise IndexError.

(** [l[-1]]. *)
Definition last_item {A} (l : list A) : result A := getitem l (-1).

Definition Qlt_bool (x y : Q) : bool := negb (Qle_bool y x).

(** [np.argmin]: the first position holding the minimum. *)
Fixpoint argmin_from (best_i : nat) (best : Q) (j : nat) (l : list Q) : nat :=
  match l with
  | [] => best_i
  | x :: t =>
      if Qlt_bool x best then argmin_from j x (S j) t
      else argmin_from best_i best (S j) t
  end.

Definition np_argmin (l : list Q) : result nat :=
  match l with
  | [] => Raise ValueError
  | x :: t => Ok (argmin_from 0 x 1 t)
  end.

(** [np.where(l == v)]: the positions of [v] in [l], ascending. *)
Fixpoint where_from (j : nat) (l : list Z) (v : Z) : list nat :=
  match l with
  | [] => []
  | x :: t =>
      if x =? v then j :: where_from (S j) t v else where_from (S j) t v
  end.

Definition np_where_eq (l : list Z) (v : Z) : list nat := where_from 0 l v.

(** [arr[idx] += d] for an index array [idx]: every listed position
    receives [d] once; an index past the end raises IndexError. *)
Fixpoint iadd_from (j : nat) (arr : list Q) (idx : list nat) (d : Q) : list Q :=
  match arr with
  | [] => []
  | x :: t =>
      (if existsb (Nat.eqb j) idx then Qplus x d else x)
        :: iadd_from (S j) t idx d
  end.

Definition iadd_at (arr : list Q) (idx : list nat) (d : Q) : result (list Q) :=
  if forallb (fun j => Nat.ltb j (length arr)) idx
  then Ok (iadd_from 0 arr idx d)
  else Raise IndexError.

(** [np.zeros(n)] and [np.sum]. *)
Definition np_zeros (n : nat) : list Q := repeat 0%Q n.

Definition np_sum (l : list Q) : Q := fold_right Qplus 0%Q l.

(** Sequencing of deterministic steps that may raise. *)
Definition rbind {A B} (r : result A) (f : A -> result B) : result B :=
  match r with
  | Ok a => f a
  | Raise e => Raise e
  end.

Notation "x <~ r ;; k" := (rbind r (fun x => k))
  (at level 61, r at next level, right associativity).

(** ** Python floats

    A finite float is the rational it denotes.  [round_binary64 x] is the
    double nearest to [x], ties to the even significand, with gradual
    underflow; the exponent is not bounded above, so a result of magnitude
    [2^1024] or more stands for an overflow. *)

Definition pow2 (e : Z) : Q :=
  if 0 <=? e then inject_Z (2 ^ e) else 1 # Z.to_pos (2 ^ (- e)).

(** [floor (log2 (m / d))] for positive [m] and [d]. *)
Definition floor_log2 (m d : Z) : Z :=
  let e0 := Z.log2 m - Z.log2 d in
  let below := if 0 <=? e0 then m <? d * 2 ^ e0 else m * 2 ^ (- e0) <? d in
  if below then e0 - 1 else e0.

(** The integer nearest to [a / b], ties to even, for [a >= 0] and [b > 0]. *)
Definition round_half_even (a b : Z) : Z :=
  let n := a / b in
  let r := a mod b in
  if 2 * r <? b then n
  else if b <? 2 * r then n + 1
  else if Z.even n then n else n + 1.

Definition round_binary64 (x : Q) : Q :=
  let m := Z.abs (Qnum x) in
  let d := Z.pos (Qden x) in
  if m =? 0 then 0%Q
  else
    let e := floor_log2 m d in
    let q := Z.max (e - 52) (-1074) in
    let n := if 0 <=? q then round_half_even m (d * 2 ^ q)
             else round_half_even (m * 2 ^ (- q)) d in
    let r := Qred (inject_Z n * pow2 q) in
    if Qnum x <? 0 then Qopp r else r.

(** A rounded value that a double can hold. *)
Definition fits_double (r : Q) : bool := Qlt_bool (Qabs r) (pow2 1024).

(** [float(z)] for a Python int: OverflowError beyond the double range. *)
Definition float_of_int (z : Z) : result Q :=
  let r := round_binary64 (inject_Z z) in
  if fits_double r then Ok r else Raise OverflowError.

(** [a / b] for Python ints, [b] positive: the correctly rounded quotient. *)
Definition int_true_div (a b : Z) : result Q :=
  let r := round_binary64 (inject_Z a / inject_Z b) in
  if fits_double r then Ok r else Raise OverflowError.

(** A float as an optimiser may return it. *)
Inductive float64 : Type :=
| Finite (q : Q)
| PlusInf
| MinusInf
| NaN.

(** ** Test parameters and session state *)

Record Config : Type := mkConfig {
  MaxTrials : Z;
  StimLevels : list Z;
  Gamma : Q;
  Lambda : Q;
  typef : string;
  size_base : Z
}.

(** [MinTrials = 0.30*MaxTrials], a float product. *)
Definition MinTrials (cfg : Config) : Q :=
  round_binary64 (round_binary64 (3 # 10)
                  * round_binary64 (inject_Z (MaxTrials cfg))).

(** The constants of the script: [MaxTrials = 30],
    [StimLevels = np.arange(0,15,1)], [Gamma = 0.5], [Lambda = 0.01],
    [size_base = 150]. *)
Definition script_config : Config := {|
  MaxTrials := 30;
  StimLevels := np_arange 0 15;
  Gamma := 1 # 2;
  Lambda := round_binary64 (1 # 100);
  typef := "Logistic";
  size_base := 150
|}.

(** What the script reads from the value [MLE_search] returns. *)
Record OptimizeResult : Type := mkOptimizeResult {
  success : bool;
  x_0 : float64;
  x_1 : float64
}.

Record State : Type := mkState {
  counter : Z;                 (* root.counter *)
  choice : list string;
  lineA_length : list Z;
  lineB_length : list Z;
  NumCorrect : list Q;
  Total : list Q;
  Option : string;             (* the StringVar behind both radiobuttons *)
  widgets_shown : bool;        (* radiobuttons and Next button are gridded *)
  plots : list (float64 * float64)  (* (alpha, beta) of every PlotResults call *)
}.

Definition set_counter (n : Z) (s : State) : State :=
  mkState n (choice s) (lineA_length s) (lineB_length s) (NumCorrect s)
          (Total s) (Option s) (widgets_shown s) (plots s).

Definition set_choice (c : list string) (s : State) : State :=
  mkState (counter s) c (lineA_length s) (lineB_length s) (NumCorrect s)
          (Total s) (Option s) (widgets_shown s) (plots s).

Definition set_lines (la lb : list Z) (s : State) : State :=
  mkState (counter s) (choice s) la lb (NumCorrect s)
          (Total s) (Option s) (widgets_shown s) (plots s).

Definition set_NumCorrect (nc : list Q) (s : State) : State :=
  mkState (counter s) (choice s) (lineA_length s) (lineB_length s) nc
          (Total s) (Option s) (widgets_shown s) (plots s).

Definition set_Total (t : list Q) (s : State) : State :=
  mkState (counter s) (choice s) (lineA_length s) (lineB_length s)
          (NumCorrect s) t (Option s) (widgets_shown s) (plots s).

Definition set_Option (o : string) (s : State) : State :=
  mkState (counter s) (choice s) (lineA_length s) (lineB_length s)
          (NumCorrect s) (Total s) o (widgets_shown s) (plots s).

Definition set_widgets_shown (b : bool) (s : State) : State :=
  mkState (counter s) (choice s) (lineA_length s) (lineB_length s)
          (NumCorrect s) (Total s) (Option s) b (plots s).

Definition set_plots (p : list (float64 * float64)) (s : State) : State :=
  mkState (counter s) (choice s) (lineA_length s) (lineB_length s)
          (NumCorrect s) (Total s) (Option s) (widgets_shown s) p.

(** ** The functions of the script *)

(** Lines 79-92. *)
Definition NewLinesLengths (size_base size_add : Z) : Dist.M (Z * Z) :=
  side <- random_choice ["A"; "B"]%string ;;
  if String.eqb side "A"
  then Dist.ret (size_base + size_add, size_base)
  else Dist.ret (size_base, size_base + size_add).

(** [Radiobutton.deselect()]: clears the variable when this button holds it. *)
Definition deselect (value : string) (s : State) : State :=
  if String.eqb (Option s) value then set_Option EmptyString s else s.

(** Lines 213-218: every widget leaves the grid. *)
Definition HideWidgets (s : State) : State := set_widgets_shown false s.

(** Line 152, one entry of [abs(StimLevels - alpha)] for a finite [alpha]:
    the level is converted to a float, the difference is rounded, the
    absolute value is exact. *)
Definition float_distance (alpha : Q) (level : Z) : Q :=
  Qabs (round_binary64 (round_binary64 (inject_Z level) - alpha)).

(** The Tk events waiting in the queue when [root.update()] is called, in
    the order of their dispatch: a click on radiobutton A or B, or a press
    of Next together with the events that are dispatched by the update of
    that nested call. *)
Inductive pending : Type :=
| no_event
| click_A (rest : pending)
| click_B (rest : pending)
| press_Next (during rest : pending).

Section Script.

Variable cfg : Config.
Variable MLE_search :
  Q -> Q -> string -> list Z -> list Q -> list Q -> OptimizeResult.

Definition len_StimLevels : Z := Z.of_nat (length (StimLevels cfg)).

(** Lines 103-117, without the canvas drawing. *)
Definition InitialiseLines (s : State) : Dist.M State :=
  size_add <- np_random_choice (StimLevels cfg) ;;
  ab <- NewLinesLengths (size_base cfg) size_add ;;
  Dist.ret (set_lines (lineA_length s ++ [fst ab])
                      (lineB_length s ++ [snd ab]) s).

(** Lines 152-153: [np.argmin] of the float distances.  For an infinite
    or NaN [alpha] every distance is [inf], respectively [nan], and
    [np.argmin] returns position 0. *)
Definition nearest_index (alpha : float64) : result nat :=
  match alpha with
  | Finite a => np_argmin (map (float_distance a) (StimLevels cfg))
  | _ => match StimLevels cfg with
         | [] => Raise ValueError
         | _ :: _ => Ok 0%nat
         end
  end.

(** Lines 155-158. *)
Definition clamp_index (StimIndex : Z) : Z :=
  if StimIndex <? 0 then 0
  else if StimIndex >? len_StimLevels - 1 then len_StimLevels - 1
  else StimIndex.

(** Lines 151-158: the branch taken after a successful fit. *)
Definition adaptive_index (alpha : float64) : Dist.M Z :=
  n <- Dist.lift (nearest_index alpha) ;;
  StimIndex <- np_random_choice
                 (np_arange (Z.of_nat n - 2) (Z.of_nat n + 3)) ;;
  Dist.ret (clamp_index StimIndex).

(** Lines 134-162: the value of [StimIndex] when line 165 is reached. *)
Definition next_StimIndex (s : State) : Dist.M Z :=
  if Qlt_bool (inject_Z (counter s)) (MinTrials cfg)
  then random_choice (range (length (StimLevels cfg)))
  else
    let results := MLE_search (Gamma cfg) (Lambda cfg) (typef cfg)
                              (StimLevels cfg) (NumCorrect s) (Total s) in
    if success results
    then adaptive_index (x_0 results)
    else random_choice (range (length (StimLevels cfg))).

(** Lines 131-167. *)
Definition GetNextLengths (s : State) : Dist.M (Z * Z) :=
  StimIndex <- next_StimIndex s ;;
  size_add <- Dist.lift (getitem (StimLevels cfg) StimIndex) ;;
  NewLinesLengths (size_base cfg) size_add.

(** Lines 170-185, without the canvas drawing. *)
Definition PresentNextLines (s : State) : Dist.M State :=
  ab <- GetNextLengths s ;;
  Dist.ret (deselect "B" (deselect "A"
              (set_lines (lineA_length s ++ [fst ab])
                         (lineB_length s ++ [snd ab]) s))).

(** Lines 199-204. *)
Definition correct_answer (a b : Z) : string :=
  if a >? b then "A" else if b >? a then "B" else "Equal".

(** Lines 188-210.  [choice[-1]] is read after [Total] is updated, as in
    the script. *)
Definition UpdateResultsVariablesByChoice (s : State) : result State :=
  a <~ last_item (lineA_length s) ;;
  b <~ last_item (lineB_length s) ;;
  let stimulus_value := Z.abs (a - b) in
  let stimulus_index := np_where_eq (StimLevels cfg) stimulus_value in
  total <~ iadd_at (Total s) stimulus_index 1 ;;
  let s1 := set_Total total s in
  let correct := correct_answer a b in
  c <~ last_item (choice s1) ;;
  if String.eqb correct c then
    nc <~ iadd_at (NumCorrect s1) stimulus_index 1 ;;
    Ok (set_NumCorrect nc s1)
  else if String.eqb correct "Equal" then
    nc <~ iadd_at (NumCorrect s1) stimulus_index (1 # 2) ;;
    Ok (set_NumCorrect nc s1)
  else Ok s1.

(** Lines 221-234: the fit that is handed to the plot. *)
Definition PlotResults (s : State) : State :=
  let results := MLE_search (Gamma cfg) (Lambda cfg) (typef cfg)
                            (StimLevels cfg) (NumCorrect s) (Total s) in
  set_plots (plots s ++ [(x_0 results, x_1 results)]) s.

(** Lines 238-283, with [HideLines] as a parameter.  [Option.get()] is
    read at line 244 and again at line 255, after [HideLines] has
    returned.  The prints and the label update are left out. *)
Definition NextCallback_body (HideLines : State -> Dist.M State) (s : State) :
    Dist.M State :=
  let s := set_counter (counter s + 1) s in
  if String.eqb (Option s) EmptyString then Dist.ret s
  else
    s <- HideLines s ;;
    let s := set_choice (choice s ++ [Option s]) s in
    s <- Dist.lift (UpdateResultsVariablesByChoice s) ;;
    if counter s <? MaxTrials cfg
    then PresentNextLines s
    else Dist.ret (PlotResults (HideWidgets s)).

(** Line 127, [root.update()]: the pending events are dispatched one after
    the other.  A click stores the value of its radiobutton; a press of
    Next runs the callback, whose own [HideLines] dispatches the events
    pending by then.  Events queued before the widgets were hidden are
    dispatched all the same.  Tk reports an exception raised by a
    dispatched callback and goes on; here it ends the update, which makes
    no difference in a reachable state, where no callback raises
    ([callbacks_never_raise]). *)
Fixpoint root_update (queue : pending) (s : State) : Dist.M State :=
  match queue with
  | no_event => Dist.ret s
  | click_A rest => root_update rest (set_Option "A" s)
  | click_B rest => root_update rest (set_Option "B" s)
  | press_Next during rest =>
      s' <- NextCallback_body (root_update during) s ;;
      root_update rest s'
  end.

(** Lines 120-128; the canvas and the pause are not modelled. *)
Definition HideLines (queue : pending) (s : State) : Dist.M State :=
  root_update queue s.

(** Lines 238-283, for the events [during] that are pending when its
    [HideLines] runs. *)
Definition NextCallback (during : pending) (s : State) : Dist.M State :=
  NextCallback_body (HideLines during) s.

(** Lines 287-294: the globals before the first pair is drawn. *)
Definition blank : State := {|
  counter := 0;
  choice := [];
  lineA_length := [];
  lineB_length := [];
  NumCorrect := np_zeros (length (StimLevels cfg));
  Total := np_zeros (length (StimLevels cfg));
  Option := EmptyString;
  widgets_shown := false;
  plots := []
|}.

(** Lines 308-330: first pair, then the widgets are placed. *)
Definition startup : Dist.M State :=
  s <- InitialiseLines blank ;;
  Dist.ret (set_widgets_shown true s).

(** ** The event loop

    While the widgets are gridded the participant may press one of the
    two radiobuttons, which stores its value in [Option], or the Next
    button, which runs [NextCallback]; [during] are the events that reach
    the queue before the [root.update()] of that call.  Events that are
    still in the queue when the last call returns, after the widgets were
    hidden, are not part of the model. *)

Inductive step : State -> State -> Prop :=
| step_select (s : State) (value : string) :
    widgets_shown s = true ->
    value = "A"%string \/ value = "B"%string ->
    step s (set_Option value s)
| step_next (s s' : State) (during : pending) :
    widgets_shown s = true ->
    Dist.yields (NextCallback during s) s' ->
    step s s'.

Inductive reachable : State -> Prop :=
| reachable_start (s : State) :
    Dist.yields startup s -> reachable s
| reachable_step (s s' : State) :
    reachable s -> step s s' -> reachable s'.

Definition Finished (s : State) : Prop := widgets_shown s = false.

(** Sessions in which no event is pending at any [root.update()]: the
    participant acts only after the previous press of Next has returned. *)
Inductive step_calm : State -> State -> Prop :=
| calm_select (s : State) (value : string) :
    widgets_shown s = true ->
    value = "A"%string \/ value = "B"%string ->
    step_calm s (set_Option value s)
| calm_next (s s' : State) :
    widgets_shown s = true ->
    Dist.yields (NextCallback no_event s) s' ->
    step_calm s s'.

Inductive reachable_calm : State -> Prop :=
| calm_start (s : State) :
    Dist.yields startup s -> reachable_calm s
| calm_step (s s' : State) :
    reachable_calm s -> step_calm s s' -> reachable_calm s'.

End Script.

(** ** Predicates used in the statements *)

(** Position [k] is listed in the index array [idx]. *)
Definition hit (idx : list nat) (k : nat) : bool := existsb (Nat.eqb k) idx.

(** The value found by the scan, read back from its position. *)
Definition scan_value (best_i : nat) (best : Q) (j : nat) (l : list Q) (r : nat) : Q :=
  if Nat.eqb r best_i then best else nth (r - j) l 0%Q.

(** The two count vectors have one entry per level and are ordered. *)
Definition history_ok (cfg : Config) (s : State) : Prop :=
  length (NumCorrect s) = length (StimLevels cfg) /\
  length (Total s) = length (StimLevels cfg) /\
  forall i, (0 <= nth i (NumCorrect s) 0 <= nth i (Total s) 0)%Q.

(** Levels as the experiment needs them: at least one, distinct,
    non-negative. *)
Definition levels_ok (cfg : Config) : Prop :=
  StimLevels cfg <> [] /\ NoDup (StimLevels cfg) /\
  Forall (fun l => 0 <= l) (StimLevels cfg).

(** The pair on screen differs by one of the levels. *)
Definition last_pair_in_levels (cfg : Config) (s : State) : Prop :=
  exists la a lb b,
    lineA_length s = la ++ [a] /\ lineB_length s = lb ++ [b] /\
    In (Z.abs (a - b)) (StimLevels cfg).

(** What the scoring and the level lookup need in order not to raise: one
    count per level and a pair on record. *)
Definition lists_ok (cfg : Config) (s : State) : Prop :=
  length (Total s) = length (StimLevels cfg) /\
  length (NumCorrect s) = length (StimLevels cfg) /\
  lineA_length s <> [] /\ lineB_length s <> [].

(** What every reachable state keeps, whatever was pending at the
    updates, when the levels are distinct and non-negative. *)
Record ledger_ok (cfg : Config) (s : State) : Prop := {
  ledger_Total_length : length (Total s) = length (StimLevels cfg);
  ledger_NumCorrect_length : length (NumCorrect s) = length (StimLevels cfg);
  ledger_sum : (np_sum (Total s) == inject_Z (Z.of_nat (length (choice s))))%Q;
  ledger_counter : Z.of_nat (length (choice s)) <= counter s;
  ledger_last_pair : last_pair_in_levels cfg s
}.

(** What a session without pending events keeps in addition. *)
Record session_ok (cfg : Config) (s : State) : Prop := {
  ok_Total_length : length (Total s) = length (StimLevels cfg);
  ok_NumCorrect_length : length (NumCorrect s) = length (StimLevels cfg);
  ok_sum : (np_sum (Total s) == inject_Z (Z.of_nat (length (choice s))))%Q;
  ok_counter : Z.of_nat (length (choice s)) <= counter s;
  ok_pairs : length (lineA_length s)
             = (length (choice s) + if widgets_shown s then 1 else 0)%nat;
  ok_running : widgets_shown s = true ->
               last_pair_in_levels cfg s /\ plots s = [];
  ok_finished : widgets_shown s = false ->
                length (plots s) = 1%nat /\ MaxTrials cfg <= counter s
}.

(** Sessions in which Next is only pressed after a radiobutton was
    selected, and no event is pending at any [root.update()]. *)
Inductive attentive (cfg : Config)
    (MLE_search : Q -> Q -> string -> list Z -> list Q -> list Q -> OptimizeResult) :
  State -> Prop :=
| attentive_start (s : State) :
    Dist.yields (startup cfg) s -> attentive cfg MLE_search s
| attentive_select (s : State) (value : string) :
    attentive cfg MLE_search s -> widgets_shown s = true ->
    value = "A"%string \/ value = "B"%string ->
    attentive cfg MLE_search (set_Option value s)
| attentive_next (s s' : State) :
    attentive cfg MLE_search s -> widgets_shown s = true ->
    Option s <> EmptyString ->
    Dist.yields (NextCallback cfg MLE_search no_event s) s' ->
    attentive cfg MLE_search s'.

(** ** Sample sessions under the constants of the script *)

(** A fit that never reports success. *)
Definition never_converges
    (_ _ : Q) (_ : string) (_ : list Z) (_ _ : list Q) : OptimizeResult :=
  mkOptimizeResult false (Finite 0) (Finite 0).

(** A fit that always reports success with threshold [alpha]. *)
Definition converges_to (alpha : Q)
    (_ _ : Q) (_ : string) (_ : list Z) (_ _ : list Q) : OptimizeResult :=
  mkOptimizeResult true (Finite alpha) (Finite 1).

(** The first pair is (160, 150). *)
Definition first_screen : State :=
  set_widgets_shown true (set_lines [160] [150] (blank script_config)).

(** 'A' was chosen for (160, 150); the second pair is (150, 153). *)
Definition second_screen : State :=
  Eval cbv in
    set_lines [160; 150] [150; 153]
      (set_NumCorrect (iadd_from 0 (np_zeros 15) [10%nat] 1)
         (set_Total (iadd_from 0 (np_zeros 15) [10%nat] 1)
            (set_choice ["A"%string] (set_counter 1 first_screen)))).

(** Next pressed once with nothing selected, then 'A' chosen for (160, 150)
    and Next pressed again; the second pair is (150, 153). *)
Definition second_screen_after_idle_click : State :=
  Eval cbv in set_counter 2 second_screen.

(** 'A' was chosen for (160, 150) after thirty presses of Next with nothing
    selected; the session is over and the fit that never converges was
    plotted. *)
Definition finished_screen : State :=
  Eval cbv in
    set_plots [(Finite 0, Finite 0)]
      (set_widgets_shown false
         (set_NumCorrect (iadd_from 0 (np_zeros 15) [10%nat] 1)
            (set_Total (iadd_from 0 (np_zeros 15) [10%nat] 1)
               (set_choice ["A"%string]
                  (set_Option "A" (set_counter 31 first_screen)))))).

(** ** Canvas geometry *)

Definition canvas_width : Z := 200.

Definition canvas_height : Z := 500.

(** Lines 94-100: end points [(x1, y1, x2, y2)] of a vertical line of
    length [size_line] in the middle of the canvas.  [/] is the true
    division of two ints, [y1 + size_line] converts [size_line] to a float
    and rounds the sum. *)
Definition LinesCoordinates (size_line : Z) : result (Q * Q * Q * Q) :=
  y1 <~ int_true_div (canvas_height - size_line) 2 ;;
  size <~ float_of_int size_line ;;
  let y2 := round_binary64 (y1 + size) in
  x <~ int_true_div canvas_width 2 ;;
  Ok (x, y1, x, y2).

(** ** Further predicates *)

(** One line at the baseline, the other longer by one of the levels. *)
Definition presented_pair (cfg : Config) (a b : Z) : Prop :=
  exists l, In l (StimLevels cfg) /\
            ((a = size_base cfg + l /\ b = size_base cfg) \/
             (a = size_base cfg /\ b = size_base cfg + l)).

(** The values the radiobutton variable can hold. *)
Definition radio_value (o : string) : Prop :=
  o = EmptyString \/ o = "A"%string \/ o = "B"%string.

(** Every pair shown so far was built from a level and the radiobutton
    variable holds one of its three values. *)
Definition pairs_ok (cfg : Config) (s : State) : Prop :=
  Forall2 (presented_pair cfg) (lineA_length s) (lineB_length s) /\
  radio_value (Option s).

(** In addition only 'A' and 'B' were recorded. *)
Definition shape_ok (cfg : Config) (s : State) : Prop :=
  Forall2 (presented_pair cfg) (lineA_length s) (lineB_length s) /\
  radio_value (Option s) /\
  Forall (fun c => c = "A"%string \/ c = "B"%string) (choice s).


(** Events on a presented pair. *)
Definition A_longer (ab : Z * Z) : bool := fst ab >? snd ab.

Definition B_longer (ab : Z * Z) : bool := snd ab >? fst ab.

(** The two lines of a pair differ by [l]. *)
Definition differs_by (l : Z) (ab : Z * Z) : bool :=
  Z.abs (fst ab - snd ab) =? l.

(** A configuration with a single, negative level. *)
Definition negative_level_config : Config := {|
  MaxTrials := 30;
  StimLevels := [-3];
  Gamma := 1 # 2;
  Lambda := round_binary64 (1 # 100);
  typef := "Logistic";
  size_base := 150
|}.





(** Position [n] holds the first minimum of the distances [d] over
    [levels]: no entry is smaller, and every earlier entry is larger. *)
Definition first_minimiser (d : Z -> Q) (levels : list Z) (n : nat) : Prop :=
  forall m ln lm,
    nth_error levels n = Some ln ->
    nth_error levels m = Some lm ->
    (d ln <= d lm)%Q /\ ((m < n)%nat -> (d ln < d lm)%Q).

(** The distance of a level to [a] in exact arithmetic. *)
Definition exact_distance (a : Q) (level : Z) : Q := Qabs (inject_Z level - a).

(** For the finite threshold [a] the float distances of line 152 are the
    exact distances [|level - a|]. *)
Definition exact_distances (cfg : Config) (a : Q) : Prop :=
  forall l, In l (StimLevels cfg) ->
            (float_distance a l == exact_distance a l)%Q.

(** The same, as a test. *)
Definition exact_distancesb (cfg : Config) (a : Q) : bool :=
  forallb (fun l => Qeq_bool (float_distance a l) (exact_distance a l))
          (StimLevels cfg).

(** Lines 255-283 take [s] to [s']: the selection is appended, the trial is
    scored, and either the next pair is presented or the session ends. *)
Definition recorded (cfg : Config)
    (MLE_search : Q -> Q -> string -> list Z -> list Q -> list Q -> OptimizeResult)
    (s s' : State) : Prop :=
  exists s1,
    UpdateResultsVariablesByChoice cfg
      (set_choice (choice s ++ [Option s]) s) = Ok s1 /\
    ((counter s1 < MaxTrials cfg /\
      Dist.yields (PresentNextLines cfg MLE_search s1) s')
     \/ (MaxTrials cfg <= counter s1 /\
         s' = PlotResults cfg MLE_search (HideWidgets s1))).


(** * Properties *)

(** ** Proof automation *)

Ltac pick_outcome :=
  eexists; vm_compute; repeat (first [left; reflexivity | right]).

Ltac clamp_cases :=
  repeat match goal with
    | |- context [Z.ltb ?a ?b] => destruct (Z.ltb_spec a b); try lia
    | |- context [Z.gtb ?a ?b] => destruct (Z.gtb_spec a b); try lia
    | |- context [Z.eqb ?a ?b] => destruct (Z.eqb_spec a b); try lia
    end.

Ltac hits_are c :=
  match goal with
  | |- (_ == inject_Z ?e * _)%Q =>
      replace e with c by lia; vm_compute; reflexivity
  end.

(** ** Distributions *)

Module DistFacts.
Import Dist.

Lemma in_scale {B} (p q : Q) (r : result B) (m : M B) :
  In (q, r) (scale p m) <-> exists q', In (q', r) m /\ q = Qmult p q'.
Proof.
  unfold scale. rewrite in_map_iff. split.
  - intros [[q' r'] [E H]]. simpl in E. inversion E; subst. eauto.
  - intros [q' [H E]]. exists (q', r). subst. auto.
Qed.

Lemma in_bind {A B} (m : M A) (f : A -> M B) (q : Q) (r : result B) :
  In (q, r) (bind m f) <->
  (exists p a q', In (p, Ok a) m /\ In (q', r) (f a) /\ q = Qmult p q')
  \/ (exists e, r = Raise e /\ In (q, Raise e) m).
Proof.
  unfold bind. rewrite in_flat_map. split.
  - intros [[p [a|e]] [Hm Hin]]; simpl in Hin.
    + apply in_scale in Hin. destruct Hin as [q' [H1 H2]].
      left. exists p, a, q'. auto.
    + destruct Hin as [E|[]]. inversion E; subst. right. eauto.
  - intros [[p [a [q' [Hm [Hf E]]]]] | [e [E Hm]]].
    + exists (p, Ok a). split; auto. simpl. apply in_scale. eauto.
    + subst. exists (q, Raise e). split; simpl; auto.
Qed.

Lemma yields_bind {A B} (m : M A) (f : A -> M B) (b : B) :
  yields (bind m f) b <-> exists a, yields m a /\ yields (f a) b.
Proof.
  unfold yields. split.
  - intros [q H]. apply in_bind in H.
    destruct H as [[p [a [q' [Hm [Hf _]]]]] | [e [E _]]]; [|discriminate].
    exists a. eauto.
  - intros [a [[p Hm] [q' Hf]]]. exists (Qmult p q').
    apply in_bind. left. exists p, a, q'. auto.
Qed.

Lemma yields_ret {A} (a b : A) : yields (ret a) b <-> a = b.
Proof.
  unfold yields, ret. simpl. split.
  - intros [p [E|[]]]. congruence.
  - intros ->. eauto.
Qed.

Lemma yields_lift {A} (r : result A) (b : A) : yields (lift r) b <-> r = Ok b.
Proof.
  unfold yields, lift. simpl. split.
  - intros [p [E|[]]]. congruence.
  - intros ->. eauto.
Qed.

Lemma yields_uniform {A} (l : list A) (a : A) : yields (uniform l) a <-> In a l.
Proof.
  unfold yields, uniform. split.
  - intros [p H]. apply in_map_iff in H. destruct H as [x [E H]].
    congruence.
  - intros H. eexists. apply in_map_iff. eauto.
Qed.

Lemma no_raise_ret {A} (a : A) : no_raise (ret a).
Proof. intros p r [E|[]]. inversion E. eauto. Qed.

Lemma no_raise_uniform {A} (l : list A) : no_raise (uniform l).
Proof.
  intros p r H. apply in_map_iff in H. destruct H as [x [E _]].
  inversion E. eauto.
Qed.

Lemma no_raise_bind {A B} (m : M A) (f : A -> M B) :
  no_raise m -> (forall a, yields m a -> no_raise (f a)) ->
  no_raise (bind m f).
Proof.
  intros Hm Hf q r H. apply in_bind in H.
  destruct H as [[p [a [q' [H1 [H2 _]]]]] | [e [E H1]]].
  - apply (Hf a) with (p := q'); [exists p; exact H1 | exact H2].
  - subst. destruct (Hm _ _ H1) as [a Ha]. discriminate.
Qed.

(** Probability under equal weights: weight times number of hits. *)
Lemma Pr_const_weight {A} (w : Q) (P : A -> bool) (l : list A) :
  (Pr (map (fun x => (w, Ok x)) l) P
   == w * inject_Z (Z.of_nat (length (filter P l))))%Q.
Proof.
  induction l as [|x l IH]; simpl.
  - ring.
  - destruct (P x); simpl length.
    + rewrite IH, Nat2Z.inj_succ. unfold Z.succ. rewrite inject_Z_plus. ring.
    + exact IH.
Qed.

Lemma Pr_uniform {A} (P : A -> bool) (l : list A) :
  (Pr (uniform l) P
   == (1 # Pos.of_nat (length l)) * inject_Z (Z.of_nat (length (filter P l))))%Q.
Proof. apply Pr_const_weight. Qed.

End DistFacts.

(** ** Python and NumPy primitives *)

Lemma yields_random_choice {A} (l : list A) (a : A) :
  Dist.yields (random_choice l) a <-> In a l.
Proof.
  destruct l as [|x l].
  - unfold random_choice, Dist.yields, Dist.raise. simpl. split.
    + intros [p [E|[]]]. discriminate.
    + intros [].
  - apply DistFacts.yields_uniform.
Qed.

Lemma yields_np_random_choice {A} (l : list A) (a : A) :
  Dist.yields (np_random_choice l) a <-> In a l.
Proof.
  destruct l as [|x l].
  - unfold np_random_choice, Dist.yields, Dist.raise. simpl. split.
    + intros [p [E|[]]]. discriminate.
    + intros [].
  - apply DistFacts.yields_uniform.
Qed.

Lemma in_range (n : nat) (i : Z) : In i (range n) <-> 0 <= i < Z.of_nat n.
Proof.
  unfold range. rewrite in_map_iff. split.
  - intros [k [E H]]. apply in_seq in H. lia.
  - intros H. exists (Z.to_nat i). split; [lia|]. apply in_seq. lia.
Qed.

Lemma in_np_arange (lo hi i : Z) : In i (np_arange lo hi) <-> lo <= i < hi.
Proof.
  unfold np_arange. rewrite in_map_iff. split.
  - intros [k [E H]]. apply in_seq in H. lia.
  - intros H. exists (Z.to_nat (i - lo)). split; [lia|]. apply in_seq. lia.
Qed.

Lemma getitem_in_range {A} (l : list A) (i : Z) :
  0 <= i < Z.of_nat (length l) ->
  exists x, getitem l i = Ok x /\ nth_error l (Z.to_nat i) = Some x.
Proof.
  intros H. unfold getitem.
  destruct (Z.ltb_spec i 0); [lia|].
  destruct (Z.leb_spec 0 i); [|lia].
  destruct (Z.ltb_spec i (Z.of_nat (length l))); [|lia]. simpl.
  destruct (nth_error l (Z.to_nat i)) eqn:E; eauto.
  apply nth_error_None in E. lia.
Qed.

Lemma last_item_app {A} (l : list A) (x : A) : last_item (l ++ [x]) = Ok x.
Proof.
  unfold last_item, getitem. rewrite length_app. simpl length.
  change (-1 <? 0) with true. cbv iota.
  replace (-1 + Z.of_nat (length l + 1)) with (Z.of_nat (length l)) by lia.
  destruct (Z.leb_spec 0 (Z.of_nat (length l))); [|lia].
  destruct (Z.ltb_spec (Z.of_nat (length l)) (Z.of_nat (length l + 1))); [|lia].
  simpl. rewrite Nat2Z.id, nth_error_app2, Nat.sub_diag by lia. reflexivity.
Qed.

Lemma last_item_Ok {A} (l : list A) (x : A) :
  last_item l = Ok x -> exists l', l = l' ++ [x].
Proof.
  intros H. assert (Hne : l <> []) by (intros ->; discriminate).
  destruct (exists_last Hne) as [l' [y E]]. subst.
  rewrite last_item_app in H. inversion H. eauto.
Qed.

(** ** Index arrays and in-place addition *)

Lemma length_iadd_from (arr : list Q) (idx : list nat) (d : Q) (j : nat) :
  length (iadd_from j arr idx d) = length arr.
Proof.
  revert j. induction arr as [|x t IH]; intros j; simpl; auto.
Qed.

Lemma nth_iadd_from (arr : list Q) (idx : list nat) (d : Q) (j k : nat) :
  (k < length arr)%nat ->
  nth k (iadd_from j arr idx d) 0%Q
  = if hit idx (j + k) then Qplus (nth k arr 0%Q) d else nth k arr 0%Q.
Proof.
  revert j k. induction arr as [|x t IH]; intros j k Hk; simpl in Hk; [lia|].
  destruct k as [|k]; simpl.
  - rewrite Nat.add_0_r. reflexivity.
  - rewrite IH by lia. replace (S j + k)%nat with (j + S k)%nat by lia.
    reflexivity.
Qed.

Lemma nth_iadd_from_beyond (arr : list Q) (idx : list nat) (d : Q) (j k : nat) :
  (length arr <= k)%nat -> nth k (iadd_from j arr idx d) 0%Q = 0%Q.
Proof.
  intros H. apply nth_overflow. rewrite length_iadd_from. exact H.
Qed.

Lemma iadd_at_Ok (arr : list Q) (idx : list nat) (d : Q) (arr' : list Q) :
  iadd_at arr idx d = Ok arr' -> arr' = iadd_from 0 arr idx d.
Proof.
  unfold iadd_at. destruct (forallb _ idx); congruence.
Qed.

Lemma in_where_from (l : list Z) (v : Z) (j k : nat) :
  In k (where_from j l v) <->
  exists m, k = (j + m)%nat /\ nth_error l m = Some v.
Proof.
  revert j. induction l as [|x t IH]; intros j; simpl.
  - split; [intros [] | intros [[|m] [_ H]]; discriminate].
  - destruct (Z.eqb_spec x v) as [->|Hne]; simpl; rewrite IH; split.
    + intros [<- | [m [-> H]]].
      * exists 0%nat. split; [lia | reflexivity].
      * exists (S m). split; [lia | exact H].
    + intros [[|m] [-> H]]; [left; lia|].
      right. exists m. split; [lia | exact H].
    + intros [m [-> H]]. exists (S m). split; [lia | exact H].
    + intros [[|m] [-> H]]; simpl in H; [congruence|].
      exists m. split; [lia | exact H].
Qed.

Lemma hit_np_where_eq (l : list Z) (v : Z) (k : nat) :
  hit (np_where_eq l v) k = true <-> nth_error l k = Some v.
Proof.
  unfold hit, np_where_eq. rewrite existsb_exists. split.
  - intros [m [Hin E]]. apply Nat.eqb_eq in E. subst m.
    apply in_where_from in Hin. destruct Hin as [m [-> H]]. exact H.
  - intros H. exists k. split; [|apply Nat.eqb_refl].
    apply in_where_from. exists k. auto.
Qed.

Lemma iadd_at_np_where_eq (arr : list Q) (l : list Z) (v : Z) (d : Q) :
  (length l <= length arr)%nat ->
  iadd_at arr (np_where_eq l v) d = Ok (iadd_from 0 arr (np_where_eq l v) d).
Proof.
  intros H. unfold iadd_at.
  replace (forallb _ _) with true; [reflexivity|].
  symmetry. apply forallb_forall. intros k Hk. apply Nat.ltb_lt.
  apply in_where_from in Hk. destruct Hk as [m [-> Hm]].
  assert (m < length l)%nat by (apply nth_error_Some; congruence). lia.
Qed.

(** ** The scorer *)

Section Scorer.

Variable cfg : Config.

(** What a completed call has done to the globals. *)
Lemma UpdateResults_shape (s s' : State) :
  UpdateResultsVariablesByChoice cfg s = Ok s' ->
  exists la a lb b cs c,
    lineA_length s = la ++ [a] /\ lineB_length s = lb ++ [b] /\
    choice s = cs ++ [c] /\
    let idx := np_where_eq (StimLevels cfg) (Z.abs (a - b)) in
    let total := iadd_from 0 (Total s) idx 1 in
    (s' = set_NumCorrect (iadd_from 0 (NumCorrect s) idx 1) (set_Total total s)
     /\ correct_answer a b = c)
    \/ (s' = set_NumCorrect (iadd_from 0 (NumCorrect s) idx (1 # 2))
                            (set_Total total s)
        /\ correct_answer a b <> c /\ a = b)
    \/ (s' = set_Total total s /\ correct_answer a b <> c /\ a <> b).
Proof.
  unfold UpdateResultsVariablesByChoice. intros H.
  destruct (last_item (lineA_length s)) as [a|] eqn:Ea; [|discriminate].
  destruct (last_item (lineB_length s)) as [b|] eqn:Eb; [|discriminate].
  simpl in H.
  destruct (iadd_at (Total s) _ 1) as [total|] eqn:Et; [|discriminate].
  simpl in H.
  destruct (last_item (choice s)) as [c|] eqn:Ec; [|discriminate].
  simpl in H.
  apply last_item_Ok in Ea, Eb, Ec.
  destruct Ea as [la Ea], Eb as [lb Eb], Ec as [cs Ec].
  apply iadd_at_Ok in Et. subst total.
  exists la, a, lb, b, cs, c. repeat (split; [assumption|]).
  destruct (String.eqb_spec (correct_answer a b) c) as [E|E].
  - destruct (iadd_at (NumCorrect s) _ 1) as [nc|] eqn:En; [|discriminate].
    apply iadd_at_Ok in En. simpl in H. left. split; congruence.
  - right.
    destruct (String.eqb_spec (correct_answer a b) "Equal") as [E'|E'].
    + destruct (iadd_at (NumCorrect s) _ (1 # 2)) as [nc|] eqn:En;
        [|discriminate].
      apply iadd_at_Ok in En. simpl in H. left.
      split; [congruence|]. split; [exact E|].
      unfold correct_answer in E'.
      destruct (Z.gtb_spec a b); [discriminate|].
      destruct (Z.gtb_spec b a); [discriminate|]. lia.
    + right. split; [congruence|]. split; [exact E|].
      intros ->. apply E'. unfold correct_answer.
      rewrite Z.gtb_ltb, Z.ltb_irrefl. reflexivity.
Qed.

End Scorer.

(** C3.  Scoring a trial whose last presented pair is [(A, B)] and whose
    recorded choice [c] is 'A' or 'B', with [i] a position of [|A - B|] in
    [StimLevels]: the call completes, [Total[i]] grows by exactly 1, and
    [NumCorrect[i]] grows by exactly 1 when [c] names the longer line, by
    exactly 0.5 when the lines are equal, and stays as it was when [c]
    names the shorter line. *)
Theorem C3_scoring_rule (cfg : Config) (s : State)
    (la lb : list Z) (A B : Z) (cs : list string) (c : string) (i : nat) :
  lineA_length s = la ++ [A] ->
  lineB_length s = lb ++ [B] ->
  choice s = cs ++ [c] ->
  c = "A"%string \/ c = "B"%string ->
  nth_error (StimLevels cfg) i = Some (Z.abs (A - B)) ->
  length (Total s) = length (StimLevels cfg) ->
  length (NumCorrect s) = length (StimLevels cfg) ->
  exists s',
    UpdateResultsVariablesByChoice cfg s = Ok s' /\
    nth i (Total s') 0%Q = Qplus (nth i (Total s) 0%Q) 1 /\
    ((A > B /\ c = "A"%string \/ B > A /\ c = "B"%string ->
      nth i (NumCorrect s') 0%Q = Qplus (nth i (NumCorrect s) 0%Q) 1) /\
     (A = B ->
      nth i (NumCorrect s') 0%Q = Qplus (nth i (NumCorrect s) 0%Q) (1 # 2)) /\
     (A > B /\ c = "B"%string \/ B > A /\ c = "A"%string ->
      nth i (NumCorrect s') 0%Q = nth i (NumCorrect s) 0%Q)).
Proof.
  intros HA HB Hc Hab Hi HT HN.
  assert (Hlt : (i < length (StimLevels cfg))%nat)
    by (apply nth_error_Some; congruence).
  assert (Hhit : hit (np_where_eq (StimLevels cfg) (Z.abs (A - B))) (0 + i) = true)
    by (apply hit_np_where_eq; exact Hi).
  unfold UpdateResultsVariablesByChoice.
  rewrite HA, HB, !last_item_app. simpl rbind.
  rewrite iadd_at_np_where_eq by lia. simpl rbind.
  unfold set_Total at 1. simpl choice. rewrite Hc, last_item_app. simpl rbind.
  simpl NumCorrect.
  assert (HTi : nth i (iadd_from 0 (Total s)
                         (np_where_eq (StimLevels cfg) (Z.abs (A - B))) 1) 0%Q
                = Qplus (nth i (Total s) 0%Q) 1)
    by (rewrite nth_iadd_from, Hhit by lia; reflexivity).
  unfold correct_answer.
  destruct (Z.gtb_spec A B) as [Hgt|Hle].
  - destruct Hab as [-> | ->]; simpl String.eqb; cbv iota.
    + rewrite iadd_at_np_where_eq by lia. simpl rbind.
      eexists. split; [reflexivity|]. simpl. split; [exact HTi|].
      repeat split.
      * intros _. rewrite nth_iadd_from, Hhit by lia. reflexivity.
      * lia.
      * intros [[_ E] | [E _]]; [discriminate | lia].
    + eexists. split; [reflexivity|]. simpl. split; [exact HTi|].
      repeat split.
      * intros [[_ E] | [E _]]; [discriminate | lia].
      * lia.
  - destruct (Z.gtb_spec B A) as [Hgt|Hle'].
    + destruct Hab as [-> | ->]; simpl String.eqb; cbv iota.
      * eexists. split; [reflexivity|]. simpl. split; [exact HTi|].
        repeat split.
        -- intros [[E _] | [_ E]]; [lia | discriminate].
        -- lia.
      * rewrite iadd_at_np_where_eq by lia. simpl rbind.
        eexists. split; [reflexivity|]. simpl. split; [exact HTi|].
        repeat split.
        -- intros _. rewrite nth_iadd_from, Hhit by lia. reflexivity.
        -- lia.
        -- intros [[E _] | [_ E]]; [lia | discriminate].
    + destruct Hab as [-> | ->]; simpl String.eqb; cbv iota;
        rewrite iadd_at_np_where_eq by lia; simpl rbind;
        (eexists; split; [reflexivity|]; simpl; split; [exact HTi|];
         repeat split;
         [ intros [[E _] | [E _]]; lia
         | intros _; rewrite nth_iadd_from, Hhit by lia; reflexivity
         | intros [[E _] | [E _]]; lia ]).
Qed.

(** The pair (160, 150) answered 'A' under the constants of the script. *)
Lemma C3_scoring_rule_witness :
  exists s',
    UpdateResultsVariablesByChoice script_config
      (set_choice ["A"%string] (set_lines [160] [150] (blank script_config)))
    = Ok s' /\
    nth 10 (Total s') 0%Q = Qplus 0 1 /\
    ((160 > 150 /\ "A"%string = "A"%string \/ 150 > 160 /\ "A"%string = "B"%string ->
      nth 10 (NumCorrect s') 0%Q = Qplus 0 1) /\
     (160 = 150 -> nth 10 (NumCorrect s') 0%Q = Qplus 0 (1 # 2)) /\
     (160 > 150 /\ "A"%string = "B"%string \/ 150 > 160 /\ "A"%string = "A"%string ->
      nth 10 (NumCorrect s') 0%Q = 0%Q)).
Proof.
  apply (C3_scoring_rule script_config
           (set_choice ["A"%string] (set_lines [160] [150] (blank script_config)))
           [] [] 160 150 [] "A"%string 10%nat);
    solve [reflexivity | left; reflexivity].
Defined.

(** ** The controller *)

Lemma Total_deselect (v : string) (s : State) : Total (deselect v s) = Total s.
Proof. unfold deselect. destruct (String.eqb _ _); reflexivity. Qed.

Lemma NumCorrect_deselect (v : string) (s : State) :
  NumCorrect (deselect v s) = NumCorrect s.
Proof. unfold deselect. destruct (String.eqb _ _); reflexivity. Qed.

Lemma counter_deselect (v : string) (s : State) :
  counter (deselect v s) = counter s.
Proof. unfold deselect. destruct (String.eqb _ _); reflexivity. Qed.

Lemma choice_deselect (v : string) (s : State) :
  choice (deselect v s) = choice s.
Proof. unfold deselect. destruct (String.eqb _ _); reflexivity. Qed.

Lemma widgets_shown_deselect (v : string) (s : State) :
  widgets_shown (deselect v s) = widgets_shown s.
Proof. unfold deselect. destruct (String.eqb _ _); reflexivity. Qed.

Lemma plots_deselect (v : string) (s : State) :
  plots (deselect v s) = plots s.
Proof. unfold deselect. destruct (String.eqb _ _); reflexivity. Qed.

Lemma lineA_length_deselect (v : string) (s : State) :
  lineA_length (deselect v s) = lineA_length s.
Proof. unfold deselect. destruct (String.eqb _ _); reflexivity. Qed.

Lemma lineB_length_deselect (v : string) (s : State) :
  lineB_length (deselect v s) = lineB_length s.
Proof. unfold deselect. destruct (String.eqb _ _); reflexivity. Qed.

Create Rewrite HintDb fields.

#[local] Hint Rewrite Total_deselect NumCorrect_deselect counter_deselect
  choice_deselect widgets_shown_deselect plots_deselect
  lineA_length_deselect lineB_length_deselect : fields.

Section Controller.

Variable cfg : Config.
Variable MLE_search :
  Q -> Q -> string -> list Z -> list Q -> list Q -> OptimizeResult.

Lemma yields_NewLinesLengths (base add a b : Z) :
  Dist.yields (NewLinesLengths base add) (a, b) ->
  (a = base + add /\ b = base) \/ (a = base /\ b = base + add).
Proof.
  unfold NewLinesLengths. intros H.
  apply DistFacts.yields_bind in H. destruct H as [side [_ H]].
  destruct (String.eqb side "A"); apply DistFacts.yields_ret in H;
    inversion H; auto.
Qed.

Lemma yields_PresentNextLines (s s' : State) :
  Dist.yields (PresentNextLines cfg MLE_search s) s' ->
  exists a b,
    Dist.yields (GetNextLengths cfg MLE_search s) (a, b) /\
    s' = deselect "B" (deselect "A"
           (set_lines (lineA_length s ++ [a]) (lineB_length s ++ [b]) s)).
Proof.
  unfold PresentNextLines. intros H.
  apply DistFacts.yields_bind in H. destruct H as [[a b] [H1 H2]].
  apply DistFacts.yields_ret in H2. exists a, b. auto.
Qed.


(** The ways a press of Next can end, for any [HideLines]. *)
Lemma yields_NextCallback_body (HideLines : State -> Dist.M State) (s s' : State) :
  Dist.yields (NextCallback_body cfg MLE_search HideLines s) s' ->
  (Option s = EmptyString /\ s' = set_counter (counter s + 1) s)
  \/ (Option s <> EmptyString /\
      exists s2,
        Dist.yields (HideLines (set_counter (counter s + 1) s)) s2 /\
        recorded cfg MLE_search s2 s').
Proof.
  unfold NextCallback_body. simpl Option.
  destruct (String.eqb_spec (Option s) EmptyString) as [E|E]; intros H.
  - left. apply DistFacts.yields_ret in H. auto.
  - right. split; [exact E|].
    apply DistFacts.yields_bind in H. destruct H as [s2 [H0 H]].
    exists s2. split; [exact H0|].
    apply DistFacts.yields_bind in H. destruct H as [s1 [H1 H2]].
    apply DistFacts.yields_lift in H1. exists s1. split; [exact H1|].
    destruct (Z.ltb_spec (counter s1) (MaxTrials cfg)).
    + left. auto.
    + right. apply DistFacts.yields_ret in H2. auto.
Qed.

(** The three ways a press of Next can end when no event is pending. *)
Lemma yields_NextCallback (s s' : State) :
  Dist.yields (NextCallback cfg MLE_search no_event s) s' ->
  (Option s = EmptyString /\ s' = set_counter (counter s + 1) s)
  \/ (Option s <> EmptyString /\
      exists s1,
        UpdateResultsVariablesByChoice cfg
          (set_choice (choice s ++ [Option s])
                      (set_counter (counter s + 1) s)) = Ok s1 /\
        ((counter s1 < MaxTrials cfg /\
          Dist.yields (PresentNextLines cfg MLE_search s1) s')
         \/ (MaxTrials cfg <= counter s1 /\
             s' = PlotResults cfg MLE_search (HideWidgets s1)))).
Proof.
  intros H. apply yields_NextCallback_body in H.
  destruct H as [H | [E [s2 [H2 Hrec]]]]; [left; exact H|].
  right. split; [exact E|].
  apply DistFacts.yields_ret in H2. subst s2. exact Hrec.
Qed.

Lemma yields_startup (s : State) :
  Dist.yields (startup cfg) s ->
  exists a b,
    s = set_widgets_shown true (set_lines [a] [b] (blank cfg)).
Proof.
  unfold startup, InitialiseLines. intros H.
  apply DistFacts.yields_bind in H. destruct H as [s1 [H1 H2]].
  apply DistFacts.yields_ret in H2. subst s.
  apply DistFacts.yields_bind in H1. destruct H1 as [add [_ H1]].
  apply DistFacts.yields_bind in H1. destruct H1 as [[a b] [_ H1]].
  apply DistFacts.yields_ret in H1. subst s1. exists a, b. reflexivity.
Qed.

(** A session without pending events is a session. *)
Lemma step_calm_step (s s' : State) :
  step_calm cfg MLE_search s s' -> step cfg MLE_search s s'.
Proof.
  intros [s0 v Hw Hv | s0 s0' Hw Hy].
  - apply step_select; assumption.
  - apply step_next with (during := no_event); assumption.
Qed.

Lemma calm_reachable (s : State) :
  reachable_calm cfg MLE_search s -> reachable cfg MLE_search s.
Proof.
  induction 1 as [s Hs | s s' _ IH Hstep].
  - apply reachable_start. exact Hs.
  - eapply reachable_step; [exact IH | apply step_calm_step; exact Hstep].
Qed.

(** *** Relations kept by every event

    A reflexive and transitive relation that holds across a click, across
    a press of Next with nothing selected, and across a scored press (the
    increment of the counter, whatever [root.update()] dispatched, then
    lines 255-283) as soon as it holds across what was dispatched, holds
    across [root.update()], across [NextCallback] and across every step. *)

Section Across.

Variable R : State -> State -> Prop.

Hypothesis R_refl : forall s, R s s.
Hypothesis R_trans : forall s1 s2 s3, R s1 s2 -> R s2 s3 -> R s1 s3.
Hypothesis R_counter : forall s, R s (set_counter (counter s + 1) s).
Hypothesis R_click :
  forall s v, v = "A"%string \/ v = "B"%string -> R s (set_Option v s).
Hypothesis R_scored :
  forall s s2 s',
    R (set_counter (counter s + 1) s) s2 -> recorded cfg MLE_search s2 s' ->
    R s s'.

Lemma across_body (HideLines : State -> Dist.M State) (s s' : State) :
  (forall t t', Dist.yields (HideLines t) t' -> R t t') ->
  Dist.yields (NextCallback_body cfg MLE_search HideLines s) s' ->
  R s s'.
Proof.
  intros Hhide H. apply yields_NextCallback_body in H.
  destruct H as [[_ ->] | [_ [s2 [H2 Hrec]]]].
  - apply R_counter.
  - apply R_scored with (s2 := s2); [apply Hhide; exact H2 | exact Hrec].
Qed.

Lemma across_update (queue : pending) :
  forall s s', Dist.yields (root_update cfg MLE_search queue s) s' -> R s s'.
Proof.
  induction queue as [|rest IH|rest IH|during IHd rest IHr]; intros s s' H;
    simpl in H.
  - apply DistFacts.yields_ret in H. subst s'. apply R_refl.
  - apply R_trans with (s2 := set_Option "A" s);
      [apply R_click; left; reflexivity | apply IH; exact H].
  - apply R_trans with (s2 := set_Option "B" s);
      [apply R_click; right; reflexivity | apply IH; exact H].
  - apply DistFacts.yields_bind in H. destruct H as [s1 [H1 H2]].
    apply R_trans with (s2 := s1); [|apply IHr; exact H2].
    apply across_body with (HideLines := root_update cfg MLE_search during);
      [exact IHd | exact H1].
Qed.

Lemma across_NextCallback (during : pending) (s s' : State) :
  Dist.yields (NextCallback cfg MLE_search during s) s' -> R s s'.
Proof.
  apply across_body. intros t t'. apply across_update.
Qed.

Lemma across_step (s s' : State) : step cfg MLE_search s s' -> R s s'.
Proof.
  intros [s0 v _ Hv | s0 s0' during _ Hy].
  - apply R_click. exact Hv.
  - eapply across_NextCallback. exact Hy.
Qed.

End Across.

(** A property kept by the increment of the counter, by a click and by
    lines 255-283 is kept by [root.update()], whatever is pending. *)
Lemma invariant_update (Inv : State -> Prop) :
  (forall s, Inv s -> Inv (set_counter (counter s + 1) s)) ->
  (forall s v, v = "A"%string \/ v = "B"%string -> Inv s ->
               Inv (set_Option v s)) ->
  (forall s s', recorded cfg MLE_search s s' -> Inv s -> Inv s') ->
  forall queue s s',
    Dist.yields (root_update cfg MLE_search queue s) s' -> Inv s -> Inv s'.
Proof.
  intros Hcounter Hclick Hrec queue.
  apply (across_update (fun t t' => Inv t -> Inv t')); auto.
  intros t t2 t' H12 Hr' Ht. apply (Hrec t2 t' Hr'). auto.
Qed.

(** Such a property, true at the start, is true of every reachable
    state. *)
Lemma reachable_invariant (Inv : State -> Prop) :
  (forall s, Dist.yields (startup cfg) s -> Inv s) ->
  (forall s, Inv s -> Inv (set_counter (counter s + 1) s)) ->
  (forall s v, v = "A"%string \/ v = "B"%string -> Inv s ->
               Inv (set_Option v s)) ->
  (forall s s', recorded cfg MLE_search s s' -> Inv s -> Inv s') ->
  forall s, reachable cfg MLE_search s -> Inv s.
Proof.
  intros Hstart Hcounter Hclick Hrec s Hr.
  induction Hr as [s Hs | s s' _ IH Hstep].
  - apply Hstart. exact Hs.
  - revert IH.
    apply (across_step (fun t t' => Inv t -> Inv t')); auto.
    intros t t2 t' H12 Hr' Ht. apply (Hrec t2 t' Hr'). auto.
Qed.

(** *** Counts stay ordered *)

Lemma history_ok_iadd (nc total : list Q) (idx : list nat) (d : Q) (i : nat) :
  length nc = length total ->
  (0 <= d <= 1)%Q ->
  (0 <= nth i nc 0 <= nth i total 0)%Q ->
  (0 <= nth i (iadd_from 0 nc idx d) 0
   <= nth i (iadd_from 0 total idx 1) 0)%Q.
Proof.
  intros Hlen Hd H.
  destruct (Nat.lt_ge_cases i (length nc)) as [Hi|Hi].
  - rewrite !nth_iadd_from by lia. destruct (hit idx (0 + i)); lra.
  - rewrite !nth_iadd_from_beyond by lia. lra.
Qed.

Lemma history_ok_iadd_Total (nc total : list Q) (idx : list nat) (i : nat) :
  (0 <= nth i nc 0 <= nth i total 0)%Q ->
  (0 <= nth i nc 0 <= nth i (iadd_from 0 total idx 1) 0)%Q.
Proof.
  intros H.
  destruct (Nat.lt_ge_cases i (length total)) as [Hi|Hi].
  - rewrite nth_iadd_from by lia. destruct (hit idx (0 + i)); lra.
  - rewrite nth_overflow with (l := total) in H by lia.
    rewrite nth_iadd_from_beyond by lia. exact H.
Qed.

Lemma history_ok_Update (s s' : State) :
  history_ok cfg s -> UpdateResultsVariablesByChoice cfg s = Ok s' ->
  history_ok cfg s'.
Proof.
  intros [HN [HT H]] HU. apply UpdateResults_shape in HU.
  destruct HU as [la [a [lb [b [cs [c [_ [_ [_ HU]]]]]]]]].
  cbv zeta in HU.
  destruct HU as [[-> _] | [[-> _] | [-> _]]]; unfold history_ok; simpl;
    rewrite ?length_iadd_from; (split; [|split]); auto; intros i.
  - apply history_ok_iadd; [congruence | lra | apply H].
  - apply history_ok_iadd; [congruence | lra | apply H].
  - apply history_ok_iadd_Total, H.
Qed.


Lemma history_ok_recorded (s s' : State) :
  recorded cfg MLE_search s s' -> history_ok cfg s -> history_ok cfg s'.
Proof.
  intros [s1 [HU Hend]] Hok.
  apply history_ok_Update in HU; [|exact Hok].
  destruct Hend as [[_ Hy] | [_ ->]].
  - apply yields_PresentNextLines in Hy. destruct Hy as [a [b [_ ->]]].
    unfold history_ok. autorewrite with fields. exact HU.
  - exact HU.
Qed.

Lemma history_ok_reachable (s : State) :
  reachable cfg MLE_search s -> history_ok cfg s.
Proof.
  apply reachable_invariant.
  - intros s0 Hs. apply yields_startup in Hs. destruct Hs as [a [b ->]].
    unfold history_ok. simpl. unfold np_zeros.
    rewrite repeat_length. (split; [|split]); auto; intros i.
    rewrite nth_repeat. lra.
  - intros s0 H. exact H.
  - intros s0 v _ H. exact H.
  - apply history_ok_recorded.
Qed.

End Controller.

(** ** Concrete sessions under the constants of the script *)

Lemma calm_first_screen
    (MLE_search : Q -> Q -> string -> list Z -> list Q -> list Q -> OptimizeResult) :
  reachable_calm script_config MLE_search first_screen.
Proof. apply calm_start. pick_outcome. Qed.

Lemma reachable_first_screen
    (MLE_search : Q -> Q -> string -> list Z -> list Q -> list Q -> OptimizeResult) :
  reachable script_config MLE_search first_screen.
Proof. apply calm_reachable, calm_first_screen. Qed.

Lemma step_first_second :
  clos_refl_trans State (step script_config never_converges)
                  first_screen second_screen.
Proof.
  apply rt_trans with (y := set_Option "A" first_screen); apply rt_step.
  - apply step_select; [reflexivity | left; reflexivity].
  - apply step_next with (during := no_event); [reflexivity | pick_outcome].
Qed.

Lemma calm_second_screen :
  reachable_calm script_config never_converges second_screen.
Proof.
  apply calm_step with (s := set_Option "A" first_screen).
  - apply calm_step with (s := first_screen).
    + apply calm_first_screen.
    + apply calm_select; [reflexivity | left; reflexivity].
  - apply calm_next; [reflexivity | pick_outcome].
Qed.

Lemma reachable_second_screen :
  reachable script_config never_converges second_screen.
Proof. apply calm_reachable, calm_second_screen. Qed.

Lemma NoDup_np_arange (lo hi : Z) : NoDup (np_arange lo hi).
Proof.
  unfold np_arange. apply Injective_map_NoDup.
  - intros a b H. lia.
  - apply seq_NoDup.
Qed.

(** ** Claims about the trial history *)

(** C5.  In every reachable session state, both count vectors have one
    entry per stimulus level and, at every index [i],
    [0 <= NumCorrect[i] <= Total[i]]. *)
Theorem C5_counts_ordered (cfg : Config)
    (MLE_search : Q -> Q -> string -> list Z -> list Q -> list Q -> OptimizeResult)
    (s : State) (i : nat) :
  reachable cfg MLE_search s ->
  (0 <= nth i (NumCorrect s) 0 <= nth i (Total s) 0)%Q /\
  length (NumCorrect s) = length (StimLevels cfg) /\
  length (Total s) = length (StimLevels cfg).
Proof.
  intros H. apply history_ok_reachable in H. destruct H as [HN [HT H]].
  auto.
Qed.

Lemma C5_counts_ordered_witness :
  (0 <= nth 10 (NumCorrect second_screen) 0
   <= nth 10 (Total second_screen) 0)%Q /\
  length (NumCorrect second_screen) = length (StimLevels script_config) /\
  length (Total second_screen) = length (StimLevels script_config).
Proof.
  apply (C5_counts_ordered script_config never_converges second_screen 10).
  apply reachable_second_screen.
Defined.

Section Frame.

Variable cfg : Config.
Variable MLE_search :
  Q -> Q -> string -> list Z -> list Q -> list Q -> OptimizeResult.

Lemma nth_iadd_from_miss (arr : list Q) (idx : list nat) (d : Q) (j : nat) :
  hit idx j = false -> nth j (iadd_from 0 arr idx d) 0%Q = nth j arr 0%Q.
Proof.
  intros H. destruct (Nat.lt_ge_cases j (length arr)) as [Hj|Hj].
  - rewrite nth_iadd_from by lia. simpl. rewrite H. reflexivity.
  - rewrite nth_iadd_from_beyond by lia. rewrite nth_overflow by lia.
    reflexivity.
Qed.

Lemma nth_iadd_from_le (arr : list Q) (idx : list nat) (d : Q) (j : nat) :
  (0 <= d)%Q -> (nth j arr 0 <= nth j (iadd_from 0 arr idx d) 0)%Q.
Proof.
  intros Hd. destruct (Nat.lt_ge_cases j (length arr)) as [Hj|Hj].
  - rewrite nth_iadd_from by lia. destruct (hit idx (0 + j)); lra.
  - rewrite nth_iadd_from_beyond by lia. rewrite nth_overflow by lia. lra.
Qed.

Lemma Update_monotone (s s' : State) (j : nat) :
  UpdateResultsVariablesByChoice cfg s = Ok s' ->
  (nth j (Total s) 0 <= nth j (Total s') 0)%Q /\
  (nth j (NumCorrect s) 0 <= nth j (NumCorrect s') 0)%Q.
Proof.
  intros HU. apply UpdateResults_shape in HU.
  destruct HU as [la [a [lb [b [cs [c [_ [_ [_ HU]]]]]]]]].
  cbv zeta in HU.
  destruct HU as [[-> _] | [[-> _] | [-> _]]]; simpl; split;
    solve [apply nth_iadd_from_le; lra | lra].
Qed.

Lemma step_monotone (s s' : State) (j : nat) :
  step cfg MLE_search s s' ->
  (nth j (Total s) 0 <= nth j (Total s') 0)%Q /\
  (nth j (NumCorrect s) 0 <= nth j (NumCorrect s') 0)%Q.
Proof.
  apply (across_step cfg MLE_search
           (fun t t' =>
              (nth j (Total t) 0 <= nth j (Total t') 0)%Q /\
              (nth j (NumCorrect t) 0 <= nth j (NumCorrect t') 0)%Q)).
  - intros t. split; lra.
  - intros t1 t2 t3 [H1 H2] [H3 H4]. split; lra.
  - intros t. simpl. split; lra.
  - intros t v _. simpl. split; lra.
  - intros t t2 t' [H1 H2] [s1 [HU Hend]]. simpl in H1, H2.
    apply Update_monotone with (j := j) in HU. simpl in HU.
    destruct HU as [H3 H4].
    destruct Hend as [[_ Hy] | [_ ->]].
    + apply yields_PresentNextLines in Hy. destruct Hy as [a [b [_ ->]]].
      autorewrite with fields. simpl. split; lra.
    + simpl. split; lra.
Qed.

Lemma steps_monotone (s s' : State) (j : nat) :
  clos_refl_trans State (step cfg MLE_search) s s' ->
  (nth j (Total s) 0 <= nth j (Total s') 0)%Q /\
  (nth j (NumCorrect s) 0 <= nth j (NumCorrect s') 0)%Q.
Proof.
  induction 1 as [s s' H | s | s u s' _ [IH1 IH2] _ [IH3 IH4]].
  - apply step_monotone. exact H.
  - split; lra.
  - split; lra.
Qed.

Lemma Update_frame (s s' : State) (la lb : list Z) (A B : Z) (j : nat) :
  lineA_length s = la ++ [A] ->
  lineB_length s = lb ++ [B] ->
  nth_error (StimLevels cfg) j <> Some (Z.abs (A - B)) ->
  UpdateResultsVariablesByChoice cfg s = Ok s' ->
  nth j (Total s') 0%Q = nth j (Total s) 0%Q /\
  nth j (NumCorrect s') 0%Q = nth j (NumCorrect s) 0%Q.
Proof.
  intros HA HB Hj HU. apply UpdateResults_shape in HU.
  destruct HU as [la' [a [lb' [b [cs [c [HA' [HB' [_ HU]]]]]]]]].
  rewrite HA in HA'. rewrite HB in HB'.
  apply app_inj_tail in HA', HB'.
  destruct HA' as [_ <-], HB' as [_ <-]. cbv zeta in HU.
  assert (Hmiss : hit (np_where_eq (StimLevels cfg) (Z.abs (A - B))) j = false).
  { destruct (hit _ j) eqn:E; [|reflexivity].
    apply hit_np_where_eq in E. contradiction. }
  destruct HU as [[-> _] | [[-> _] | [-> _]]]; simpl;
    rewrite ?nth_iadd_from_miss by exact Hmiss; auto.
Qed.

End Frame.

(** C10.  A scoring call for the pair [(A, B)], with [i] the position of
    [|A - B|] in a duplicate-free [StimLevels], leaves [Total[j]] and
    [NumCorrect[j]] as they were at every [j <> i]; and along any sequence
    of events of a session, from [t] to [t'], no entry of [Total] or of
    [NumCorrect] decreases. *)
Theorem C10_scoring_frame (cfg : Config)
    (MLE_search : Q -> Q -> string -> list Z -> list Q -> list Q -> OptimizeResult)
    (s s' : State) (la lb : list Z) (A B : Z) (i j : nat) (t t' : State) (k : nat) :
  NoDup (StimLevels cfg) ->
  lineA_length s = la ++ [A] ->
  lineB_length s = lb ++ [B] ->
  nth_error (StimLevels cfg) i = Some (Z.abs (A - B)) ->
  UpdateResultsVariablesByChoice cfg s = Ok s' ->
  j <> i ->
  clos_refl_trans State (step cfg MLE_search) t t' ->
  (nth j (Total s') 0%Q = nth j (Total s) 0%Q /\
   nth j (NumCorrect s') 0%Q = nth j (NumCorrect s) 0%Q) /\
  ((nth k (Total t) 0 <= nth k (Total t') 0)%Q /\
   (nth k (NumCorrect t) 0 <= nth k (NumCorrect t') 0)%Q).
Proof.
  intros Hnd HA HB Hi HU Hji Hsteps. split.
  - apply (Update_frame cfg s s' la lb A B j HA HB); [|exact HU].
    intros Hj. apply Hji.
    assert (Hlt : (j < length (StimLevels cfg))%nat)
      by (apply nth_error_Some; congruence).
    apply (proj1 (NoDup_nth_error (StimLevels cfg)) Hnd j i Hlt). congruence.
  - apply steps_monotone with (cfg := cfg) (MLE_search := MLE_search).
    exact Hsteps.
Qed.

Lemma C10_scoring_frame_witness :
  (nth 3 (Total second_screen) 0%Q
   = nth 3 (Total (set_choice ["A"%string] first_screen)) 0%Q /\
   nth 3 (NumCorrect second_screen) 0%Q
   = nth 3 (NumCorrect (set_choice ["A"%string] first_screen)) 0%Q) /\
  ((nth 10 (Total first_screen) 0 <= nth 10 (Total second_screen) 0)%Q /\
   (nth 10 (NumCorrect first_screen) 0
    <= nth 10 (NumCorrect second_screen) 0)%Q).
Proof.
  apply (C10_scoring_frame script_config never_converges
           (set_choice ["A"%string] first_screen)
           (set_lines [160] [150]
              (set_NumCorrect (NumCorrect second_screen)
                 (set_Total (Total second_screen)
                    (set_choice ["A"%string] first_screen))))
           [] [] 160 150 10%nat 3%nat first_screen second_screen 10%nat).
  - apply NoDup_np_arange.
  - reflexivity.
  - reflexivity.
  - reflexivity.
  - reflexivity.
  - lia.
  - apply step_first_second.
Defined.

(** ** The pair generator *)

(** C9.  [NewLinesLengths size_base size_add] has exactly two outcomes, each
    of weight 1/2: the increment on line A with line B at the baseline, or
    the increment on line B with line A at the baseline.  With a zero
    increment every outcome has equal lengths.  The function receives and
    returns no session state; the caller that stores the pair,
    [PresentNextLines], leaves the trial counter, the recorded choices,
    [NumCorrect] and [Total] as they were. *)
Theorem C9_NewLinesLengths_pair (cfg : Config)
    (MLE_search : Q -> Q -> string -> list Z -> list Q -> list Q -> OptimizeResult)
    (size_base size_add : Z) (s s' : State) :
  Dist.yields (PresentNextLines cfg MLE_search s) s' ->
  NewLinesLengths size_base size_add
  = [((1 # 2)%Q, Ok (size_base + size_add, size_base));
     ((1 # 2)%Q, Ok (size_base, size_base + size_add))] /\
  Forall (fun o => exists a, snd o = Ok (a, a)) (NewLinesLengths size_base 0) /\
  (NumCorrect s' = NumCorrect s /\ Total s' = Total s /\
   counter s' = counter s /\ choice s' = choice s).
Proof.
  intros Hy. split; [reflexivity|]. split.
  - repeat constructor; simpl; rewrite Z.add_0_r; eauto.
  - apply yields_PresentNextLines in Hy. destruct Hy as [a [b [_ ->]]].
    autorewrite with fields. simpl. auto.
Qed.

Lemma C9_NewLinesLengths_pair_witness :
  NewLinesLengths 150 10
  = [((1 # 2)%Q, Ok (150 + 10, 150)); ((1 # 2)%Q, Ok (150, 150 + 10))] /\
  Forall (fun o => exists a, snd o = Ok (a, a)) (NewLinesLengths 150 0) /\
  (NumCorrect second_screen
   = NumCorrect (set_lines [160] [150] second_screen) /\
   Total second_screen = Total (set_lines [160] [150] second_screen) /\
   counter second_screen = counter (set_lines [160] [150] second_screen) /\
   choice second_screen = choice (set_lines [160] [150] second_screen)).
Proof.
  apply (C9_NewLinesLengths_pair script_config never_converges 150 10
           (set_lines [160] [150] second_screen) second_screen).
  pick_outcome.
Defined.

(** ** The selector *)

Lemma Qlt_bool_iff (x y : Q) : Qlt_bool x y = true <-> (x < y)%Q.
Proof.
  unfold Qlt_bool. rewrite negb_true_iff. split.
  - intros H. apply Qnot_le_lt. intros Hle.
    apply Qle_bool_iff in Hle. congruence.
  - intros H. destruct (Qle_bool y x) eqn:E; [|reflexivity].
    apply Qle_bool_iff in E. lra.
Qed.

Lemma Qlt_bool_false (x y : Q) : Qlt_bool x y = false <-> (y <= x)%Q.
Proof.
  unfold Qlt_bool. rewrite negb_false_iff. apply Qle_bool_iff.
Qed.

Lemma argmin_from_spec (l : list Q) :
  forall (best_i : nat) (best : Q) (j : nat),
    (best_i < j)%nat ->
    let r := argmin_from best_i best j l in
    let v := scan_value best_i best j l r in
    (r = best_i \/ (j <= r < j + length l)%nat) /\
    (v <= best)%Q /\
    (forall m, (m < length l)%nat -> (v <= nth m l 0)%Q) /\
    (r <> best_i ->
     (v < best)%Q /\ forall m, (j + m < r)%nat -> (v < nth m l 0)%Q).
Proof.
  induction l as [|x t IH]; intros best_i best j Hlt; cbv zeta.
  - simpl. unfold scan_value. rewrite Nat.eqb_refl.
    repeat split; try lra; try lia; auto.
  - simpl argmin_from. destruct (Qlt_bool x best) eqn:E.
    + apply Qlt_bool_iff in E.
      specialize (IH j x (S j) (Nat.lt_succ_diag_r j)). cbv zeta in IH.
      set (r := argmin_from j x (S j) t) in *.
      destruct IH as [Hr [Hv [Hall Hstrict]]].
      assert (Hrb : r <> best_i) by lia.
      assert (Ev : scan_value best_i best j (x :: t) r = scan_value j x (S j) t r).
      { unfold scan_value. destruct (Nat.eqb_spec r best_i); [lia|].
        destruct (Nat.eqb_spec r j) as [->|Hrj].
        - rewrite Nat.sub_diag. reflexivity.
        - replace (r - j)%nat with (S (r - S j)) by lia. reflexivity. }
      rewrite Ev. simpl length. repeat split; try lia; try lra.
      * intros [|m] Hm; simpl; [lra | apply Hall; lia].
      * intros [|m] Hm; simpl.
        -- apply Hstrict. lia.
        -- apply Hstrict; lia.
    + apply Qlt_bool_false in E.
      specialize (IH best_i best (S j) (Nat.lt_lt_succ_r _ _ Hlt)).
      cbv zeta in IH.
      set (r := argmin_from best_i best (S j) t) in *.
      destruct IH as [Hr [Hv [Hall Hstrict]]].
      assert (Ev : scan_value best_i best j (x :: t) r
                   = scan_value best_i best (S j) t r).
      { unfold scan_value. destruct (Nat.eqb_spec r best_i); [reflexivity|].
        replace (r - j)%nat with (S (r - S j)) by lia. reflexivity. }
      rewrite Ev. simpl length. repeat split; try lia; try lra.
      * intros [|m] Hm; simpl; [lra | apply Hall; lia].
      * apply Hstrict; assumption.
      * intros [|m] Hm; simpl.
        -- destruct (Hstrict H) as [Hs _]. lra.
        -- apply Hstrict; [assumption | lia].
Qed.

(** [np.argmin] on a non-empty array: a position of the minimum, and the
    first one. *)
Lemma np_argmin_spec (l : list Q) :
  l <> [] ->
  exists n,
    np_argmin l = Ok n /\ (n < length l)%nat /\
    (forall m, (m < length l)%nat -> (nth n l 0 <= nth m l 0)%Q) /\
    (forall m, (m < n)%nat -> (nth n l 0 < nth m l 0)%Q).
Proof.
  destruct l as [|x t]; [congruence|]. intros _.
  exists (argmin_from 0 x 1 t). split; [reflexivity|].
  pose proof (argmin_from_spec t 0%nat x 1%nat Nat.lt_0_1) as H.
  cbv zeta in H. set (r := argmin_from 0 x 1 t) in *.
  destruct H as [Hr [Hv [Hall Hstrict]]].
  assert (Ev : scan_value 0 x 1 t r = nth r (x :: t) 0%Q).
  { unfold scan_value. destruct r as [|r]; simpl; [reflexivity|].
    rewrite Nat.sub_0_r. reflexivity. }
  rewrite Ev in *. simpl length. repeat split.
  - lia.
  - intros [|m] Hm; simpl nth at 2; [exact Hv | apply Hall; lia].
  - intros [|m] Hm.
    + simpl nth at 2. apply Hstrict. lia.
    + simpl nth at 2. apply Hstrict; lia.
Qed.

Section Selector.

Variable cfg : Config.
Variable MLE_search :
  Q -> Q -> string -> list Z -> list Q -> list Q -> OptimizeResult.

Let L : Z := len_StimLevels cfg.

Lemma first_minimiser_argmin (d : Z -> Q) (levels : list Z) :
  levels <> [] ->
  exists n,
    np_argmin (map d levels) = Ok n /\
    (n < length levels)%nat /\ first_minimiser d levels n.
Proof.
  intros Hne.
  destruct (np_argmin_spec (map d levels)) as [n [E [Hn [Hle Hlt]]]].
  - destruct levels; [congruence | discriminate].
  - rewrite length_map in *. exists n. split; [exact E|]. split; [exact Hn|].
    intros m ln lm Hln Hlm.
    assert (Hm : (m < length levels)%nat)
      by (apply nth_error_Some; congruence).
    split.
    + specialize (Hle m Hm).
      rewrite (nth_error_nth _ _ _ (map_nth_error d _ _ Hln)) in Hle.
      rewrite (nth_error_nth _ _ _ (map_nth_error d _ _ Hlm)) in Hle.
      exact Hle.
    + intros Hmn. specialize (Hlt m Hmn).
      rewrite (nth_error_nth _ _ _ (map_nth_error d _ _ Hln)) in Hlt.
      rewrite (nth_error_nth _ _ _ (map_nth_error d _ _ Hlm)) in Hlt.
      exact Hlt.
Qed.

(** What lines 152-153 find: for a finite [alpha] the first minimum of
    the float distances, otherwise position 0. *)
Lemma nearest_index_spec (alpha : float64) :
  StimLevels cfg <> [] ->
  exists n,
    nearest_index cfg alpha = Ok n /\
    (n < length (StimLevels cfg))%nat /\
    (forall a, alpha = Finite a ->
               first_minimiser (float_distance a) (StimLevels cfg) n) /\
    ((forall a, alpha <> Finite a) -> n = 0%nat).
Proof.
  intros Hne. destruct alpha as [a | | |]; simpl.
  - destruct (first_minimiser_argmin (float_distance a) (StimLevels cfg) Hne)
      as [n [E [Hn Hmin]]].
    exists n. split; [exact E|]. split; [exact Hn|]. split.
    + intros a' Ha. inversion Ha; subst a'. exact Hmin.
    + intros H. exfalso. apply (H a). reflexivity.
  - destruct (StimLevels cfg) as [|x t]; [congruence|].
    exists 0%nat. split; [reflexivity|]. split; [simpl; lia|].
    split; [discriminate | reflexivity].
  - destruct (StimLevels cfg) as [|x t]; [congruence|].
    exists 0%nat. split; [reflexivity|]. split; [simpl; lia|].
    split; [discriminate | reflexivity].
  - destruct (StimLevels cfg) as [|x t]; [congruence|].
    exists 0%nat. split; [reflexivity|]. split; [simpl; lia|].
    split; [discriminate | reflexivity].
Qed.

(** Where the subtractions of line 152 are exact, the position found is
    the one nearest to the threshold, the lowest on a tie. *)
Lemma first_minimiser_exact (a : Q) (n : nat) :
  exact_distances cfg a ->
  first_minimiser (float_distance a) (StimLevels cfg) n ->
  first_minimiser (exact_distance a) (StimLevels cfg) n.
Proof.
  intros Hex Hmin m ln lm Hln Hlm.
  destruct (Hmin m ln lm Hln Hlm) as [Hle Hlt].
  rewrite <- (Hex ln (nth_error_In _ _ Hln)).
  rewrite <- (Hex lm (nth_error_In _ _ Hlm)).
  split; assumption.
Qed.

Lemma exact_distancesb_sound (a : Q) :
  exact_distancesb cfg a = true -> exact_distances cfg a.
Proof.
  unfold exact_distancesb, exact_distances. intros H l Hl.
  rewrite forallb_forall in H. apply Qeq_bool_iff. apply H. exact Hl.
Qed.

(** After a successful fit the five draws [nearest-2 .. nearest+2] are
    equally likely and each is clamped. *)
Lemma adaptive_index_unfold (alpha : float64) (n : nat) :
  nearest_index cfg alpha = Ok n ->
  adaptive_index cfg alpha
  = map (fun k => ((1 # 5)%Q, Ok (clamp_index cfg (Z.of_nat n - 2 + k))))
        [0; 1; 2; 3; 4].
Proof.
  intros E. unfold adaptive_index. rewrite E.
  unfold Dist.lift, Dist.bind at 1. cbn [flat_map snd fst].
  unfold np_arange.
  replace (Z.of_nat n + 3 - (Z.of_nat n - 2)) with 5 by lia.
  reflexivity.
Qed.

Lemma clamp_index_bounds (n : nat) (k : Z) :
  (n < length (StimLevels cfg))%nat -> 0 <= k <= 4 ->
  0 <= clamp_index cfg (Z.of_nat n - 2 + k) <= L - 1 /\
  Z.abs (clamp_index cfg (Z.of_nat n - 2 + k) - Z.of_nat n) <= 2.
Proof.
  intros Hn Hk. subst L. unfold clamp_index, len_StimLevels.
  clamp_cases; lia.
Qed.

(** In the adaptive phase with a successful fit the selector is
    [adaptive_index] at the fitted threshold. *)
Lemma next_StimIndex_adaptive (s : State) :
  Qlt_bool (inject_Z (counter s)) (MinTrials cfg) = false ->
  success (MLE_search (Gamma cfg) (Lambda cfg) (typef cfg) (StimLevels cfg)
                      (NumCorrect s) (Total s)) = true ->
  next_StimIndex cfg MLE_search s
  = adaptive_index cfg
      (x_0 (MLE_search (Gamma cfg) (Lambda cfg) (typef cfg) (StimLevels cfg)
                       (NumCorrect s) (Total s))).
Proof.
  intros Hphase Hok. unfold next_StimIndex. rewrite Hphase, Hok. reflexivity.
Qed.

End Selector.

(** The threshold 13.75 is a double at which the float distances to the
    levels of the script are exact. *)
Lemma exact_distances_sample :
  (round_binary64 (55 # 4) == 55 # 4)%Q /\
  exact_distances script_config (55 # 4).
Proof.
  split; [vm_compute; reflexivity|].
  apply exact_distancesb_sound. vm_compute. reflexivity.
Qed.

(** C7, as stated, fails for a threshold far from the levels.  Take the
    tenth trial and a fit that reports success with [alpha = 1e17] under
    the constants of the script.  Doubles near 1e17 are 16 apart, so the
    float differences [level - alpha] are [-1e17] for the levels 0 to 8
    and [-1e17 + 16] for the levels 9 to 14: the first minimum of the
    float distances is at position 9 and index 7 is a possible outcome,
    while level 14 is nearest to [alpha] and 7 is not within 2 of 14. *)
Lemma C7_rounding_moves_the_window :
  let alpha := inject_Z (10 ^ 17) in
  let s := set_counter 9 second_screen in
  Qlt_bool (inject_Z (counter s)) (MinTrials script_config) = false /\
  (round_binary64 alpha == alpha)%Q /\
  exact_distancesb script_config alpha = false /\
  nearest_index script_config (Finite alpha) = Ok 9%nat /\
  In ((1 # 5)%Q, Ok 7)
     (next_StimIndex script_config (converges_to alpha) s) /\
  forallb (fun l => Qle_bool (exact_distance alpha 14) (exact_distance alpha l))
          (StimLevels script_config) = true /\
  ~ Z.abs (7 - 14) <= 2.
Proof.
  cbv zeta. split; [reflexivity|]. split; [vm_compute; reflexivity|].
  split; [vm_compute; reflexivity|]. split; [vm_compute; reflexivity|].
  split; [vm_compute; left; reflexivity|].
  split; [vm_compute; reflexivity | lia].
Qed.

(** C7, amended.  In the adaptive phase ([counter >= MinTrials]) with a
    fit that reports success, whatever the fitted [alpha] and whatever the
    draw, the selector raises nothing and returns an index [idx] with
    [0 <= idx <= L-1] that is within 2 of the position [n] found by lines
    152-153; the level lookup [StimLevels[idx]] that follows succeeds.
    For a finite [alpha], [n] is the first minimum of the float distances
    [|float(level) - alpha|], and it is the position of the level nearest
    to [alpha] (the lowest on a tie) whenever those float distances are
    exact; for an infinite or NaN [alpha], [n] is 0. *)
Theorem C7_adaptive_index_in_range (cfg : Config)
    (MLE_search : Q -> Q -> string -> list Z -> list Q -> list Q -> OptimizeResult)
    (s : State) (p : Q) (r : result Z) :
  let results := MLE_search (Gamma cfg) (Lambda cfg) (typef cfg)
                            (StimLevels cfg) (NumCorrect s) (Total s) in
  StimLevels cfg <> [] ->
  Qlt_bool (inject_Z (counter s)) (MinTrials cfg) = false ->
  success results = true ->
  In (p, r) (next_StimIndex cfg MLE_search s) ->
  exists (n : nat) (idx : Z),
    nearest_index cfg (x_0 results) = Ok n /\
    r = Ok idx /\
    0 <= idx <= len_StimLevels cfg - 1 /\
    Z.abs (idx - Z.of_nat n) <= 2 /\
    (exists level, getitem (StimLevels cfg) idx = Ok level) /\
    (forall a, x_0 results = Finite a ->
       first_minimiser (float_distance a) (StimLevels cfg) n /\
       (exact_distances cfg a ->
        first_minimiser (exact_distance a) (StimLevels cfg) n)) /\
    ((forall a, x_0 results <> Finite a) -> n = 0%nat).
Proof.
  intros results Hne Hphase Hok Hin. subst results.
  rewrite next_StimIndex_adaptive in Hin by assumption.
  set (alpha := x_0 _) in *.
  destruct (nearest_index_spec cfg alpha Hne) as [n [E [Hn [Hmin Hspecial]]]].
  rewrite (adaptive_index_unfold cfg alpha n E) in Hin.
  apply in_map_iff in Hin. destruct Hin as [k [Ek Hk]].
  assert (Hk' : 0 <= k <= 4) by (simpl in Hk; lia).
  destruct (clamp_index_bounds cfg n k Hn Hk') as [Hb Hd].
  inversion Ek; subst. exists n. eexists.
  split; [exact E|]. split; [reflexivity|]. split; [exact Hb|].
  split; [exact Hd|]. split; [|split].
  - destruct (getitem_in_range (StimLevels cfg)
                (clamp_index cfg (Z.of_nat n - 2 + k))) as [x [Hx _]].
    + unfold len_StimLevels in Hb. lia.
    + eauto.
  - intros a Ha. split; [apply Hmin; exact Ha|].
    intros Hex. apply first_minimiser_exact; [exact Hex | apply Hmin; exact Ha].
  - exact Hspecial.
Qed.

Lemma C7_adaptive_index_in_range_witness :
  exists (n : nat) (idx : Z),
    nearest_index script_config (Finite (55 # 4)) = Ok n /\
    Ok 14 = Ok idx /\
    0 <= idx <= len_StimLevels script_config - 1 /\
    Z.abs (idx - Z.of_nat n) <= 2 /\
    (exists level, getitem (StimLevels script_config) idx = Ok level) /\
    (forall a, Finite (55 # 4) = Finite a ->
       first_minimiser (float_distance a) (StimLevels script_config) n /\
       (exact_distances script_config a ->
        first_minimiser (exact_distance a) (StimLevels script_config) n)) /\
    ((forall a, Finite (55 # 4) <> Finite a) -> n = 0%nat).
Proof.
  apply (C7_adaptive_index_in_range script_config (converges_to (55 # 4))
           (set_counter 9 second_screen) (1 # 5) (Ok 14)).
  - discriminate.
  - reflexivity.
  - reflexivity.
  - vm_compute. do 4 right. left. reflexivity.
Defined.

(** C2, as stated, fails at the lower boundary.  Take the tenth trial
    ([counter = 9 = MinTrials]) and a fit that reports success with
    [alpha = 0] under the constants of the script.  The nearest position is
    0 and the clamped window is [0, 2]; the draws -2, -1 and 0 all land on
    index 0, which therefore has probability 3/5 while index 1 has
    probability 1/5. *)
Lemma C2_boundary_not_uniform :
  let s := set_counter 9 second_screen in
  let selector := next_StimIndex script_config (converges_to 0) s in
  Qlt_bool (inject_Z (counter s)) (MinTrials script_config) = false /\
  nearest_index script_config (Finite 0) = Ok 0%nat /\
  (Dist.Pr selector (Z.eqb 0) == 3 # 5)%Q /\
  (Dist.Pr selector (Z.eqb 1) == 1 # 5)%Q /\
  ~ (Dist.Pr selector (Z.eqb 0) == Dist.Pr selector (Z.eqb 1))%Q.
Proof.
  cbv zeta. repeat (split; [vm_compute; reflexivity|]).
  vm_compute. discriminate.
Qed.

(** C2, amended.  In the adaptive phase with a fit that reports success
    with threshold [alpha], the position [n] found by lines 152-153 is,
    for a finite [alpha], the first minimum of the float distances
    [|float(level) - alpha|], which is the first minimiser of
    [|StimLevels[i] - alpha|] whenever those float distances are exact,
    and 0 for an infinite or NaN [alpha].  The selected index is the
    clamped value of a draw that is uniform over the five integers
    [n-2 .. n+2].  Hence every index of the window strictly between 0 and
    [L-1] has probability 1/5; index 0, when it is in the window, collects
    every draw at or below 0 (probability [(3 - n)/5]); index [L-1], when
    it is in the window, collects every draw at or above [L-1]
    (probability [(n + 4 - L)/5]); and when the whole window lies inside
    [0, L-1] each of its five indices has probability 1/5. *)
Theorem C2_adaptive_index_distribution (cfg : Config)
    (MLE_search : Q -> Q -> string -> list Z -> list Q -> list Q -> OptimizeResult)
    (s : State) :
  let results := MLE_search (Gamma cfg) (Lambda cfg) (typef cfg)
                            (StimLevels cfg) (NumCorrect s) (Total s) in
  let alpha := x_0 results in
  let selector := next_StimIndex cfg MLE_search s in
  StimLevels cfg <> [] ->
  Qlt_bool (inject_Z (counter s)) (MinTrials cfg) = false ->
  success results = true ->
  exists n : nat,
    nearest_index cfg alpha = Ok n /\
    (n < length (StimLevels cfg))%nat /\
    (forall a, alpha = Finite a ->
       first_minimiser (float_distance a) (StimLevels cfg) n /\
       (exact_distances cfg a ->
        first_minimiser (exact_distance a) (StimLevels cfg) n)) /\
    ((forall a, alpha <> Finite a) -> n = 0%nat) /\
    (forall i,
        0 < i < len_StimLevels cfg - 1 ->
        Z.of_nat n - 2 <= i <= Z.of_nat n + 2 ->
        (Dist.Pr selector (Z.eqb i) == 1 # 5)%Q) /\
    (1 < len_StimLevels cfg -> Z.of_nat n <= 2 ->
     (Dist.Pr selector (Z.eqb 0) == inject_Z (3 - Z.of_nat n) * (1 # 5))%Q) /\
    (1 < len_StimLevels cfg -> len_StimLevels cfg - 3 <= Z.of_nat n ->
     (Dist.Pr selector (Z.eqb (len_StimLevels cfg - 1))
      == inject_Z (Z.of_nat n + 4 - len_StimLevels cfg) * (1 # 5))%Q) /\
    (2 <= Z.of_nat n <= len_StimLevels cfg - 3 ->
     forall i, Z.of_nat n - 2 <= i <= Z.of_nat n + 2 ->
               (Dist.Pr selector (Z.eqb i) == 1 # 5)%Q).
Proof.
  intros results alpha selector Hne Hphase Hok. subst selector.
  rewrite next_StimIndex_adaptive by assumption.
  fold results. fold alpha. clearbody alpha. clear results Hok Hphase.
  destruct (nearest_index_spec cfg alpha Hne) as [n [E [Hn [Hmin Hspecial]]]].
  exists n. split; [exact E|]. split; [exact Hn|]. split; [|split].
  - intros a Ha. split; [apply Hmin; exact Ha|].
    intros Hex. apply first_minimiser_exact; [exact Hex | apply Hmin; exact Ha].
  - exact Hspecial.
  - rewrite (adaptive_index_unfold cfg alpha n E).
    unfold clamp_index, len_StimLevels. cbn [map Dist.Pr].
    repeat split.
    + intros i Hi Hw. clamp_cases; vm_compute; reflexivity.
    + intros HL Hn2. clamp_cases; first [hits_are 1 | hits_are 2 | hits_are 3].
    + intros HL Hn2. clamp_cases; first [hits_are 1 | hits_are 2 | hits_are 3].
    + intros Hin i Hw. clamp_cases; vm_compute; reflexivity.
Qed.

Lemma C2_adaptive_index_distribution_witness :
  let alpha := Finite (55 # 4) in
  let selector := next_StimIndex script_config (converges_to (55 # 4))
                                 (set_counter 9 second_screen) in
  exists n : nat,
    nearest_index script_config alpha = Ok n /\
    (n < length (StimLevels script_config))%nat /\
    (forall a, alpha = Finite a ->
       first_minimiser (float_distance a) (StimLevels script_config) n /\
       (exact_distances script_config a ->
        first_minimiser (exact_distance a) (StimLevels script_config) n)) /\
    ((forall a, alpha <> Finite a) -> n = 0%nat) /\
    (forall i,
        0 < i < len_StimLevels script_config - 1 ->
        Z.of_nat n - 2 <= i <= Z.of_nat n + 2 ->
        (Dist.Pr selector (Z.eqb i) == 1 # 5)%Q) /\
    (1 < len_StimLevels script_config -> Z.of_nat n <= 2 ->
     (Dist.Pr selector (Z.eqb 0) == inject_Z (3 - Z.of_nat n) * (1 # 5))%Q) /\
    (1 < len_StimLevels script_config ->
     len_StimLevels script_config - 3 <= Z.of_nat n ->
     (Dist.Pr selector (Z.eqb (len_StimLevels script_config - 1))
      == inject_Z (Z.of_nat n + 4 - len_StimLevels script_config) * (1 # 5))%Q) /\
    (2 <= Z.of_nat n <= len_StimLevels script_config - 3 ->
     forall i, Z.of_nat n - 2 <= i <= Z.of_nat n + 2 ->
               (Dist.Pr selector (Z.eqb i) == 1 # 5)%Q).
Proof.
  apply (C2_adaptive_index_distribution script_config
           (converges_to (55 # 4)) (set_counter 9 second_screen)).
  - discriminate.
  - reflexivity.
  - reflexivity.
Defined.

(** ** Uniform selection *)

Lemma count_in_seq (i : Z) (n start : nat) :
  length (filter (Z.eqb i) (map Z.of_nat (seq start n)))
  = if (Z.of_nat start <=? i) && (i <? Z.of_nat (start + n)) then 1%nat else 0%nat.
Proof.
  revert start. induction n as [|n IH]; intros start.
  - simpl. rewrite Nat.add_0_r.
    destruct (Z.leb_spec (Z.of_nat start) i), (Z.ltb_spec i (Z.of_nat start));
      simpl; auto; lia.
  - simpl. destruct (Z.eqb_spec i (Z.of_nat start)) as [Heq|Hne]; simpl;
      rewrite IH;
      destruct (Z.leb_spec (Z.of_nat (S start)) i),
               (Z.ltb_spec i (Z.of_nat (S start + n))),
               (Z.leb_spec (Z.of_nat start) i),
               (Z.ltb_spec i (Z.of_nat (start + S n)));
      simpl; auto; lia.
Qed.

Lemma Pr_random_choice_range (n : nat) (i : Z) :
  0 <= i < Z.of_nat n ->
  (Dist.Pr (random_choice (range n)) (Z.eqb i) == 1 # Pos.of_nat n)%Q.
Proof.
  intros Hi. destruct n as [|n]; [lia|].
  change (random_choice (range (S n))) with (Dist.uniform (range (S n))).
  rewrite DistFacts.Pr_uniform. unfold range at 2.
  rewrite count_in_seq.
  destruct (Z.leb_spec (Z.of_nat 0) i); [|lia].
  destruct (Z.ltb_spec i (Z.of_nat (0 + S n))); [|lia].
  unfold range. rewrite length_map, length_seq. simpl andb. cbv iota.
  change (inject_Z (Z.of_nat 1)) with 1%Q. ring.
Qed.

Lemma no_raise_random_choice_range (n : nat) :
  n <> 0%nat -> Dist.no_raise (random_choice (range n)).
Proof.
  destruct n as [|n]; [congruence|]. intros _.
  change (random_choice (range (S n))) with (Dist.uniform (range (S n))).
  apply DistFacts.no_raise_uniform.
Qed.

Lemma no_raise_NewLinesLengths (base add : Z) :
  Dist.no_raise (NewLinesLengths base add).
Proof.
  intros p r H. simpl in H.
  destruct H as [E | [E | []]]; inversion E; eauto.
Qed.

Section Fallback.

Variable cfg : Config.
Variable MLE_search :
  Q -> Q -> string -> list Z -> list Q -> list Q -> OptimizeResult.

Hypothesis levels_nonempty : StimLevels cfg <> [].

Lemma length_StimLevels_pos : length (StimLevels cfg) <> 0%nat.
Proof. destruct (StimLevels cfg); [congruence | discriminate]. Qed.

(** Once the index is known to be in range, drawing the pair and storing
    it raise nothing. *)
Lemma no_raise_PresentNextLines (s : State) :
  Dist.no_raise (next_StimIndex cfg MLE_search s) ->
  (forall i, Dist.yields (next_StimIndex cfg MLE_search s) i ->
             0 <= i <= len_StimLevels cfg - 1) ->
  Dist.no_raise (PresentNextLines cfg MLE_search s).
Proof.
  intros Hnr Hrange. unfold PresentNextLines, GetNextLengths.
  apply DistFacts.no_raise_bind; [|intros; apply DistFacts.no_raise_ret].
  apply DistFacts.no_raise_bind; [exact Hnr|].
  intros i Hi. apply Hrange in Hi. unfold len_StimLevels in Hi.
  destruct (getitem_in_range (StimLevels cfg) i) as [x [Hx _]]; [lia|].
  rewrite Hx. apply DistFacts.no_raise_bind.
  - intros p r [E|[]]. inversion E. eauto.
  - intros; apply no_raise_NewLinesLengths.
Qed.

Lemma next_StimIndex_fallback (s : State) :
  Qlt_bool (inject_Z (counter s)) (MinTrials cfg) = false ->
  success (MLE_search (Gamma cfg) (Lambda cfg) (typef cfg) (StimLevels cfg)
                      (NumCorrect s) (Total s)) = false ->
  next_StimIndex cfg MLE_search s
  = random_choice (range (length (StimLevels cfg))).
Proof.
  intros Hphase Hfail. unfold next_StimIndex.
  rewrite Hphase, Hfail. reflexivity.
Qed.

Lemma next_StimIndex_warmup (w : State) :
  Qlt_bool (inject_Z (counter w)) (MinTrials cfg) = true ->
  next_StimIndex cfg MLE_search w
  = random_choice (range (length (StimLevels cfg))).
Proof. intros Hphase. unfold next_StimIndex. rewrite Hphase. reflexivity. Qed.

End Fallback.

(** C8.  In the adaptive phase ([counter >= MinTrials]), when the fit does
    not report success, the selector is the very distribution used in the
    warm-up phase: every index of [0 .. L-1] has probability [1/L], every
    outcome is an index in that range, nothing is raised, and the
    presentation of the next pair completes without an exception. *)
Theorem C8_fit_failure_falls_back (cfg : Config)
    (MLE_search : Q -> Q -> string -> list Z -> list Q -> list Q -> OptimizeResult)
    (s w : State) :
  StimLevels cfg <> [] ->
  Qlt_bool (inject_Z (counter s)) (MinTrials cfg) = false ->
  success (MLE_search (Gamma cfg) (Lambda cfg) (typef cfg) (StimLevels cfg)
                      (NumCorrect s) (Total s)) = false ->
  Qlt_bool (inject_Z (counter w)) (MinTrials cfg) = true ->
  next_StimIndex cfg MLE_search s = next_StimIndex cfg MLE_search w /\
  (forall i, 0 <= i <= len_StimLevels cfg - 1 ->
             (Dist.Pr (next_StimIndex cfg MLE_search s) (Z.eqb i)
              == 1 # Pos.of_nat (length (StimLevels cfg)))%Q) /\
  (forall i, Dist.yields (next_StimIndex cfg MLE_search s) i ->
             0 <= i <= len_StimLevels cfg - 1) /\
  Dist.no_raise (next_StimIndex cfg MLE_search s) /\
  Dist.no_raise (PresentNextLines cfg MLE_search s).
Proof.
  intros Hne Hphase Hfail Hwarm.
  pose proof (length_StimLevels_pos cfg Hne) as Hpos.
  assert (Hrange : forall i, Dist.yields (next_StimIndex cfg MLE_search s) i ->
                             0 <= i <= len_StimLevels cfg - 1).
  { intros i Hi. rewrite next_StimIndex_fallback in Hi by assumption.
    apply yields_random_choice, in_range in Hi. unfold len_StimLevels. lia. }
  assert (Hnr : Dist.no_raise (next_StimIndex cfg MLE_search s)).
  { rewrite next_StimIndex_fallback by assumption.
    apply no_raise_random_choice_range. exact Hpos. }
  split; [|split; [|split; [|split]]].
  - rewrite next_StimIndex_fallback, next_StimIndex_warmup by assumption.
    reflexivity.
  - intros i Hi. rewrite next_StimIndex_fallback by assumption.
    apply Pr_random_choice_range. unfold len_StimLevels in Hi. lia.
  - exact Hrange.
  - exact Hnr.
  - apply no_raise_PresentNextLines; assumption.
Qed.

Lemma C8_fit_failure_falls_back_witness :
  next_StimIndex script_config never_converges (set_counter 9 second_screen)
  = next_StimIndex script_config never_converges first_screen /\
  (forall i, 0 <= i <= len_StimLevels script_config - 1 ->
             (Dist.Pr (next_StimIndex script_config never_converges
                         (set_counter 9 second_screen)) (Z.eqb i)
              == 1 # Pos.of_nat (length (StimLevels script_config)))%Q) /\
  (forall i, Dist.yields (next_StimIndex script_config never_converges
                            (set_counter 9 second_screen)) i ->
             0 <= i <= len_StimLevels script_config - 1) /\
  Dist.no_raise (next_StimIndex script_config never_converges
                   (set_counter 9 second_screen)) /\
  Dist.no_raise (PresentNextLines script_config never_converges
                   (set_counter 9 second_screen)).
Proof.
  apply (C8_fit_failure_falls_back script_config never_converges
           (set_counter 9 second_screen) first_screen).
  - discriminate.
  - reflexivity.
  - reflexivity.
  - reflexivity.
Defined.

(** ** Presses of Next with nothing selected *)

Section IdleClicks.

Variable cfg : Config.
Variable MLE_search :
  Q -> Q -> string -> list Z -> list Q -> list Q -> OptimizeResult.

(** With [Option] empty, [NextCallback] only adds one to the counter:
    [HideLines] is not reached, so no pending event is dispatched. *)
Lemma NextCallback_idle (during : pending) (s : State) :
  Option s = EmptyString ->
  NextCallback cfg MLE_search during s
  = Dist.ret (set_counter (counter s + 1) s).
Proof.
  intros H. unfold NextCallback, NextCallback_body. simpl Option.
  rewrite H. reflexivity.
Qed.

Lemma step_idle_click (s : State) (n : nat) :
  widgets_shown s = true ->
  Option s = EmptyString ->
  step_calm cfg MLE_search (set_counter (counter s + Z.of_nat n) s)
            (set_counter (counter s + Z.of_nat (S n)) s).
Proof.
  intros Hw Ho. apply calm_next; [exact Hw|].
  rewrite NextCallback_idle by exact Ho.
  apply DistFacts.yields_ret. unfold set_counter. simpl. f_equal. lia.
Qed.

Lemma set_counter_same (s : State) :
  set_counter (counter s + Z.of_nat 0) s = s.
Proof. destruct s; unfold set_counter; simpl. f_equal. lia. Qed.

Lemma reachable_idle_clicks (s : State) (n : nat) :
  reachable cfg MLE_search s ->
  widgets_shown s = true ->
  Option s = EmptyString ->
  reachable cfg MLE_search (set_counter (counter s + Z.of_nat n) s).
Proof.
  intros Hr Hw Ho. induction n as [|n IH].
  - rewrite set_counter_same. exact Hr.
  - apply reachable_step with (s := set_counter (counter s + Z.of_nat n) s);
      [exact IH|].
    apply step_calm_step, step_idle_click; assumption.
Qed.

Lemma calm_idle_clicks (s : State) (n : nat) :
  reachable_calm cfg MLE_search s ->
  widgets_shown s = true ->
  Option s = EmptyString ->
  reachable_calm cfg MLE_search (set_counter (counter s + Z.of_nat n) s).
Proof.
  intros Hr Hw Ho. induction n as [|n IH].
  - rewrite set_counter_same. exact Hr.
  - apply calm_step with (s := set_counter (counter s + Z.of_nat n) s);
      [exact IH|].
    apply step_idle_click; assumption.
Qed.

End IdleClicks.

(** C1.  On the first screen, with no radiobutton selected, a press of Next
    has a single outcome, whatever events are waiting in the Tk queue, and
    in it [root.counter] is 1 instead of 0.  The recorded choices,
    [NumCorrect] and [Total] are as before. *)
Theorem C1_idle_click_advances_counter
    (MLE_search : Q -> Q -> string -> list Z -> list Q -> list Q -> OptimizeResult)
    (during : pending) :
  reachable script_config MLE_search first_screen /\
  Option first_screen = EmptyString /\
  NextCallback script_config MLE_search during first_screen
  = [(1%Q, Ok (set_counter 1 first_screen))] /\
  counter (set_counter 1 first_screen) <> counter first_screen /\
  choice (set_counter 1 first_screen) = choice first_screen /\
  NumCorrect (set_counter 1 first_screen) = NumCorrect first_screen /\
  Total (set_counter 1 first_screen) = Total first_screen.
Proof.
  split; [apply reachable_first_screen|].
  repeat split. discriminate.
Qed.

Lemma reachable_second_screen_after_idle_click
    (MLE_search : Q -> Q -> string -> list Z -> list Q -> list Q -> OptimizeResult) :
  reachable script_config MLE_search second_screen_after_idle_click.
Proof.
  apply reachable_step
    with (s := set_Option "A" (set_counter 1 first_screen)).
  - apply reachable_step with (s := set_counter 1 first_screen).
    + apply (reachable_idle_clicks script_config MLE_search first_screen 1);
        [apply reachable_first_screen | reflexivity | reflexivity].
    + apply step_select; [reflexivity | left; reflexivity].
  - apply step_next with (during := no_event); [reflexivity | pick_outcome].
Qed.

(** C4.  After one press of Next with nothing selected followed by one
    scored trial, the session is in a reachable state where [Total] sums to
    1 while [root.counter] is 2. *)
Theorem C4_idle_click_breaks_sum
    (MLE_search : Q -> Q -> string -> list Z -> list Q -> list Q -> OptimizeResult) :
  reachable script_config MLE_search second_screen_after_idle_click /\
  choice second_screen_after_idle_click = ["A"%string] /\
  (np_sum (Total second_screen_after_idle_click) == 1)%Q /\
  counter second_screen_after_idle_click = 2 /\
  ~ (np_sum (Total second_screen_after_idle_click)
     == inject_Z (counter second_screen_after_idle_click))%Q.
Proof.
  split; [apply reachable_second_screen_after_idle_click|].
  repeat split. vm_compute. discriminate.
Qed.

(** C6.  Thirty presses of Next with nothing selected bring [root.counter]
    to [MaxTrials] in a reachable state that is not finished: the widgets
    are still shown and nothing was plotted.  Choosing 'A' and pressing Next
    (no event waiting when the lines are hidden) then has a single outcome,
    which is finished, with one plot, at [root.counter = 31]. *)
Theorem C6_idle_clicks_overshoot_MaxTrials
    (MLE_search : Q -> Q -> string -> list Z -> list Q -> list Q -> OptimizeResult) :
  reachable script_config MLE_search (set_counter 30 first_screen) /\
  counter (set_counter 30 first_screen) = MaxTrials script_config /\
  ~ Finished (set_counter 30 first_screen) /\
  plots (set_counter 30 first_screen) = [] /\
  exists f,
    NextCallback script_config MLE_search no_event
                 (set_Option "A" (set_counter 30 first_screen))
    = [(1%Q, Ok f)] /\
    reachable script_config MLE_search f /\
    Finished f /\
    counter f = 31 /\
    counter f <> MaxTrials script_config /\
    length (plots f) = 1%nat.
Proof.
  assert (H30 : reachable script_config MLE_search (set_counter 30 first_screen)).
  { apply (reachable_idle_clicks script_config MLE_search first_screen 30);
      [apply reachable_first_screen | reflexivity | reflexivity]. }
  split; [exact H30|]. split; [reflexivity|]. split; [discriminate|].
  split; [reflexivity|].
  eexists. split; [reflexivity|]. split.
  - apply reachable_step
      with (s := set_Option "A" (set_counter 30 first_screen)).
    + apply reachable_step with (s := set_counter 30 first_screen);
        [exact H30|].
      apply step_select; [reflexivity | left; reflexivity].
    + apply step_next with (during := no_event); [reflexivity|].
      eexists. left. reflexivity.
  - repeat split. discriminate.
Qed.

(** ** What the session maintains

    The facts below hold when the levels are distinct, non-negative and
    at least one exists.  In every reachable state [Total] sums to the
    number of recorded choices.  When no event is pending at any
    [root.update()] there is one presented pair per recorded choice and one
    plot at the end, and [root.counter] equals the number of recorded
    choices as long as Next was never pressed with nothing selected. *)

Lemma iadd_from_cons_below (arr : list Q) (idx : list nat) (d : Q) (i j : nat) :
  (i < j)%nat -> iadd_from j arr (i :: idx) d = iadd_from j arr idx d.
Proof.
  revert j. induction arr as [|y t IH]; intros j Hij; simpl; [reflexivity|].
  destruct (Nat.eqb_spec j i); [lia|]. simpl. rewrite IH by lia. reflexivity.
Qed.

Lemma hit_where_from_below (l : list Z) (v : Z) (j k : nat) :
  (k < j)%nat -> hit (where_from j l v) k = false.
Proof.
  intros Hk. unfold hit. destruct (existsb _ _) eqn:E; [|reflexivity].
  apply existsb_exists in E. destruct E as [m [Hin Hm]].
  apply Nat.eqb_eq in Hm. subst m.
  apply in_where_from in Hin. destruct Hin as [m [-> _]]. lia.
Qed.

Lemma np_sum_iadd_where (l : list Z) (v : Z) (d : Q) :
  forall (arr : list Q) (j : nat),
    length arr = length l ->
    (np_sum (iadd_from j arr (where_from j l v) d)
     == np_sum arr + d * inject_Z (Z.of_nat (count_occ Z.eq_dec l v)))%Q.
Proof.
  induction l as [|x t IH]; intros [|y arr] j Hlen; simpl in Hlen;
    try discriminate.
  - simpl. ring.
  - injection Hlen as Hlen. simpl where_from. simpl count_occ.
    destruct (Z.eqb_spec x v) as [->|Hne].
    + destruct (Z.eq_dec v v) as [_|]; [|congruence].
      cbn [iadd_from existsb]. rewrite Nat.eqb_refl. simpl orb. cbv iota.
      rewrite iadd_from_cons_below by lia. cbn [np_sum fold_right].
      fold (np_sum (iadd_from (S j) arr (where_from (S j) t v) d)).
      rewrite IH by exact Hlen. fold (np_sum arr).
      rewrite Nat2Z.inj_succ. unfold Z.succ. rewrite inject_Z_plus.
      change (inject_Z 1) with 1%Q. ring.
    + destruct (Z.eq_dec x v) as [|_]; [congruence|].
      cbn [iadd_from]. fold (hit (where_from (S j) t v) j).
      rewrite hit_where_from_below by lia. cbn [np_sum fold_right].
      fold (np_sum (iadd_from (S j) arr (where_from (S j) t v) d)).
      rewrite IH by exact Hlen. fold (np_sum arr). ring.
Qed.

Lemma getitem_Ok_In {A} (l : list A) (i : Z) (x : A) :
  getitem l i = Ok x -> In x l.
Proof.
  unfold getitem. destruct (_ && _); [|discriminate].
  destruct (nth_error l _) eqn:E; [|discriminate].
  intros H. inversion H; subst. eapply nth_error_In; eauto.
Qed.

Section Session.

Variable cfg : Config.
Variable MLE_search :
  Q -> Q -> string -> list Z -> list Q -> list Q -> OptimizeResult.

Hypothesis Hlevels : levels_ok cfg.

Lemma yields_GetNextLengths_level (s : State) (a b : Z) :
  Dist.yields (GetNextLengths cfg MLE_search s) (a, b) ->
  In (Z.abs (a - b)) (StimLevels cfg).
Proof.
  unfold GetNextLengths. intros H.
  apply DistFacts.yields_bind in H. destruct H as [i [_ H]].
  apply DistFacts.yields_bind in H. destruct H as [add [Hadd H]].
  apply DistFacts.yields_lift, getitem_Ok_In in Hadd.
  destruct Hlevels as [_ [_ Hpos]].
  rewrite Forall_forall in Hpos. pose proof (Hpos add Hadd) as Hge.
  apply yields_NewLinesLengths in H.
  destruct H as [[-> ->] | [-> ->]].
  - replace (Z.abs (size_base cfg + add - size_base cfg)) with add by lia.
    exact Hadd.
  - replace (Z.abs (size_base cfg - (size_base cfg + add))) with add by lia.
    exact Hadd.
Qed.

Lemma sum_Total_Update (s s' : State) :
  length (Total s) = length (StimLevels cfg) ->
  last_pair_in_levels cfg s ->
  UpdateResultsVariablesByChoice cfg s = Ok s' ->
  (np_sum (Total s') == np_sum (Total s) + 1)%Q.
Proof.
  intros Hlen [la [a [lb [b [HA [HB Hin]]]]]] HU.
  apply UpdateResults_shape in HU.
  destruct HU as [la' [a' [lb' [b' [cs [c [HA' [HB' [_ HU]]]]]]]]].
  rewrite HA in HA'. rewrite HB in HB'. apply app_inj_tail in HA', HB'.
  destruct HA' as [_ <-], HB' as [_ <-]. cbv zeta in HU.
  assert (Hone : count_occ Z.eq_dec (StimLevels cfg) (Z.abs (a - b)) = 1%nat).
  { destruct Hlevels as [_ [Hnd _]].
    apply (proj1 (NoDup_count_occ' Z.eq_dec (StimLevels cfg)) Hnd). exact Hin. }
  assert (Hsum : (np_sum (iadd_from 0 (Total s)
                            (np_where_eq (StimLevels cfg) (Z.abs (a - b))) 1)
                  == np_sum (Total s) + 1)%Q).
  { unfold np_where_eq. rewrite np_sum_iadd_where by exact Hlen.
    rewrite Hone. change (inject_Z (Z.of_nat 1)) with 1%Q. ring. }
  destruct HU as [[-> _] | [[-> _] | [-> _]]]; simpl; exact Hsum.
Qed.

Lemma Update_fields (s s' : State) :
  UpdateResultsVariablesByChoice cfg s = Ok s' ->
  length (Total s') = length (Total s) /\
  length (NumCorrect s') = length (NumCorrect s) /\
  counter s' = counter s /\ choice s' = choice s /\
  lineA_length s' = lineA_length s /\ lineB_length s' = lineB_length s /\
  widgets_shown s' = widgets_shown s /\ plots s' = plots s.
Proof.
  intros HU. apply UpdateResults_shape in HU.
  destruct HU as [la [a [lb [b [cs [c [_ [_ [_ HU]]]]]]]]]. cbv zeta in HU.
  destruct HU as [[-> _] | [[-> _] | [-> _]]]; simpl;
    rewrite ?length_iadd_from; repeat split; reflexivity.
Qed.

Lemma recorded_fields (s s' : State) :
  recorded cfg MLE_search s s' ->
  counter s' = counter s /\ choice s' = choice s ++ [Option s] /\
  length (Total s') = length (Total s) /\
  length (NumCorrect s') = length (NumCorrect s) /\
  exists la lb,
    lineA_length s' = lineA_length s ++ la /\
    lineB_length s' = lineB_length s ++ lb.
Proof.
  intros [s1 [HU Hend]]. apply Update_fields in HU. simpl in HU.
  destruct HU as [HT1 [HN1 [Hc1 [Hch1 [HA1 [HB1 _]]]]]].
  destruct Hend as [[_ Hy] | [_ ->]].
  - apply yields_PresentNextLines in Hy. destruct Hy as [a [b [_ ->]]].
    autorewrite with fields. simpl. repeat split; try assumption.
    exists [a], [b]. rewrite HA1, HB1. auto.
  - simpl. repeat split; try assumption.
    exists [], []. rewrite !app_nil_r. auto.
Qed.

Lemma ledger_ok_recorded (s s' : State) :
  recorded cfg MLE_search s s' -> ledger_ok cfg s ->
  Z.of_nat (length (choice s)) < counter s ->
  ledger_ok cfg s'.
Proof.
  intros Hrec Hok Hlt.
  destruct (recorded_fields s s' Hrec) as [Hc [Hch [HT [HN _]]]].
  destruct Hrec as [s1 [HU Hend]].
  destruct Hok as [HT0 HN0 Hs Hcnt Hlast].
  assert (Hsum := HU).
  apply sum_Total_Update in Hsum; [| exact HT0 | exact Hlast].
  apply Update_fields in HU. simpl in HU, Hsum.
  destruct HU as [_ [_ [_ [_ [HA1 [HB1 _]]]]]].
  assert (Hsum' : (np_sum (Total s1)
                   == inject_Z (Z.of_nat (length (choice s ++ [Option s]))))%Q).
  { rewrite Hsum, Hs, length_app. simpl.
    rewrite Nat.add_1_r, Nat2Z.inj_succ. unfold Z.succ.
    rewrite inject_Z_plus. reflexivity. }
  constructor.
  - congruence.
  - congruence.
  - rewrite Hch. destruct Hend as [[_ Hy] | [_ ->]].
    + apply yields_PresentNextLines in Hy. destruct Hy as [a [b [_ ->]]].
      autorewrite with fields. exact Hsum'.
    + exact Hsum'.
  - rewrite Hch, Hc, length_app. simpl. lia.
  - destruct Hend as [[_ Hy] | [_ ->]].
    + apply yields_PresentNextLines in Hy. destruct Hy as [a [b [Hab ->]]].
      apply yields_GetNextLengths_level in Hab.
      exists (lineA_length s1), a, (lineB_length s1), b.
      autorewrite with fields. simpl. auto.
    + destruct Hlast as [la [a [lb [b [HA [HB Hin]]]]]].
      exists la, a, lb, b. simpl. rewrite HA1, HB1. auto.
Qed.

(** [ledger_ok] is kept, and the counter never falls behind the recorded
    choices, across a step, across [NextCallback] and across
    [root.update()], whatever is pending. *)
Lemma ledger_ok_across (P : State -> State -> Prop) :
  (forall R : State -> State -> Prop,
      (forall s, R s s) ->
      (forall s1 s2 s3, R s1 s2 -> R s2 s3 -> R s1 s3) ->
      (forall s, R s (set_counter (counter s + 1) s)) ->
      (forall s v, v = "A"%string \/ v = "B"%string -> R s (set_Option v s)) ->
      (forall s s2 s',
          R (set_counter (counter s + 1) s) s2 ->
          recorded cfg MLE_search s2 s' -> R s s') ->
      forall s s', P s s' -> R s s') ->
  forall s s',
    P s s' -> ledger_ok cfg s ->
    ledger_ok cfg s' /\
    counter s - Z.of_nat (length (choice s))
    <= counter s' - Z.of_nat (length (choice s')).
Proof.
  intros Hacross.
  apply (Hacross (fun t t' =>
                    ledger_ok cfg t ->
                    ledger_ok cfg t' /\
                    counter t - Z.of_nat (length (choice t))
                    <= counter t' - Z.of_nat (length (choice t')))).
  - intros t Ht. split; [exact Ht | lia].
  - intros t1 t2 t3 H12 H23 H1. destruct (H12 H1) as [H2 Hle].
    destruct (H23 H2) as [H3 Hle']. split; [exact H3 | lia].
  - intros t Ht. split; [|simpl; lia].
    destruct Ht. constructor; simpl; auto. lia.
  - intros t v _ Ht. split; [|simpl; lia].
    destruct Ht. constructor; simpl; auto.
  - intros t t2 t' H12 Hrec Ht.
    assert (Ht1 : ledger_ok cfg (set_counter (counter t + 1) t)).
    { destruct Ht. constructor; simpl; auto. lia. }
    destruct (H12 Ht1) as [H2 Hle]. simpl in Hle.
    pose proof (ledger_counter cfg t Ht) as Hcnt.
    destruct (recorded_fields t2 t' Hrec) as [Hc [Hch _]].
    split.
    + apply (ledger_ok_recorded t2 t' Hrec H2). lia.
    + rewrite Hc, Hch, length_app. simpl. lia.
Qed.

Lemma ledger_ok_step (s s' : State) :
  step cfg MLE_search s s' -> ledger_ok cfg s -> ledger_ok cfg s'.
Proof.
  intros Hstep Hok.
  apply (ledger_ok_across (step cfg MLE_search)) with (s := s);
    [|exact Hstep | exact Hok].
  intros R H1 H2 H3 H4 H5. apply (across_step cfg MLE_search R); assumption.
Qed.


Lemma np_sum_zeros (n : nat) : (np_sum (np_zeros n) == 0)%Q.
Proof.
  induction n as [|n IH]; simpl; [reflexivity|].
  fold (np_zeros n). fold (np_sum (np_zeros n)). rewrite IH. reflexivity.
Qed.

Lemma session_ok_startup (s : State) :
  Dist.yields (startup cfg) s -> session_ok cfg s.
Proof.
  unfold startup, InitialiseLines. intros H.
  apply DistFacts.yields_bind in H. destruct H as [s1 [H1 H2]].
  apply DistFacts.yields_ret in H2. subst s.
  apply DistFacts.yields_bind in H1. destruct H1 as [add [Hadd H1]].
  apply DistFacts.yields_bind in H1. destruct H1 as [[a b] [Hab H1]].
  apply DistFacts.yields_ret in H1. subst s1.
  apply yields_np_random_choice in Hadd.
  destruct Hlevels as [_ [_ Hpos]]. rewrite Forall_forall in Hpos.
  pose proof (Hpos add Hadd) as Hge.
  constructor; simpl; unfold np_zeros; rewrite ?repeat_length; auto.
  - apply np_sum_zeros.
  - lia.
  - intros _. split; [|reflexivity]. exists [], a, [], b.
    repeat split. apply yields_NewLinesLengths in Hab.
    destruct Hab as [[-> ->] | [-> ->]].
    + replace (Z.abs (size_base cfg + add - size_base cfg)) with add by lia.
      exact Hadd.
    + replace (Z.abs (size_base cfg - (size_base cfg + add))) with add by lia.
      exact Hadd.
  - discriminate.
Qed.


(** In every reachable state, whatever was pending at the updates, the
    count vectors have one entry per level, [Total] sums to the number of
    recorded choices, which never exceeds [root.counter], and the last
    pair differs by one of the levels. *)
Lemma ledger_ok_reachable (s : State) :
  reachable cfg MLE_search s -> ledger_ok cfg s.
Proof.
  induction 1 as [s Hs | s s' _ IH Hstep].
  - pose proof (session_ok_startup s Hs) as [HT HN Hsum Hc _ Hrun _].
    constructor; auto.
    apply Hrun. apply yields_startup in Hs. destruct Hs as [a [b ->]].
    reflexivity.
  - eapply ledger_ok_step; eauto.
Qed.

(** Once the widgets are hidden no event can occur. *)
Lemma Finished_terminal (s s' : State) :
  Finished s -> ~ step cfg MLE_search s s'.
Proof.
  unfold Finished. intros Hf Hstep.
  destruct Hstep as [s v Hw _ | s s' during Hw _]; congruence.
Qed.

Lemma attentive_calm (s : State) :
  attentive cfg MLE_search s -> reachable_calm cfg MLE_search s.
Proof.
  induction 1 as [s Hs | s v _ IH Hw Hv | s s' _ IH Hw _ Hy].
  - apply calm_start. exact Hs.
  - eapply calm_step; [exact IH|]. apply calm_select; assumption.
  - eapply calm_step; [exact IH|]. apply calm_next; assumption.
Qed.

Lemma attentive_reachable (s : State) :
  attentive cfg MLE_search s -> reachable cfg MLE_search s.
Proof. intros H. apply calm_reachable, attentive_calm, H. Qed.



End Session.

(** ** No press of Next raises *)

Section Totality.

Variable cfg : Config.
Variable MLE_search :
  Q -> Q -> string -> list Z -> list Q -> list Q -> OptimizeResult.

Hypothesis Hne : StimLevels cfg <> [].

Lemma next_StimIndex_total (s : State) :
  Dist.no_raise (next_StimIndex cfg MLE_search s) /\
  forall i, Dist.yields (next_StimIndex cfg MLE_search s) i ->
            0 <= i <= len_StimLevels cfg - 1.
Proof.
  pose proof (length_StimLevels_pos cfg Hne) as Hpos.
  assert (Hrandom :
            Dist.no_raise (random_choice (range (length (StimLevels cfg)))) /\
            forall i, Dist.yields (random_choice (range (length (StimLevels cfg)))) i ->
                      0 <= i <= len_StimLevels cfg - 1).
  { split; [apply no_raise_random_choice_range; exact Hpos|].
    intros i Hi. apply yields_random_choice, in_range in Hi.
    unfold len_StimLevels. lia. }
  unfold next_StimIndex.
  destruct (Qlt_bool _ _); [exact Hrandom|].
  destruct (success _); [|exact Hrandom].
  set (alpha := x_0 _).
  destruct (nearest_index_spec cfg alpha Hne) as [n [E [Hn _]]].
  rewrite (adaptive_index_unfold cfg alpha n E). split.
  - intros p r H. apply in_map_iff in H. destruct H as [k [Ek _]].
    inversion Ek. eauto.
  - intros i [p H]. apply in_map_iff in H. destruct H as [k [Ek Hk]].
    inversion Ek; subst.
    apply clamp_index_bounds; [exact Hn | simpl in Hk; lia].
Qed.

Lemma UpdateResults_completes (s : State)
    (la lb : list Z) (a b : Z) (cs : list string) (c : string) :
  lineA_length s = la ++ [a] ->
  lineB_length s = lb ++ [b] ->
  choice s = cs ++ [c] ->
  length (Total s) = length (StimLevels cfg) ->
  length (NumCorrect s) = length (StimLevels cfg) ->
  exists s', UpdateResultsVariablesByChoice cfg s = Ok s'.
Proof.
  intros HA HB Hc HT HN. unfold UpdateResultsVariablesByChoice.
  rewrite HA, HB, !last_item_app. simpl rbind.
  rewrite iadd_at_np_where_eq by lia. simpl rbind.
  unfold set_Total at 1. simpl choice. rewrite Hc, last_item_app. simpl rbind.
  simpl NumCorrect.
  destruct (String.eqb _ c); [|destruct (String.eqb _ _)];
    rewrite ?iadd_at_np_where_eq by lia; simpl rbind; eauto.
Qed.

Lemma nonempty_last {A} (l : list A) :
  l <> [] -> exists l' x, l = l' ++ [x].
Proof.
  intros H. destruct (exists_last H) as [l' [x E]]. exists l', x. exact E.
Qed.

Lemma lists_ok_counter (s : State) :
  lists_ok cfg s -> lists_ok cfg (set_counter (counter s + 1) s).
Proof. intros H. exact H. Qed.

Lemma lists_ok_click (s : State) (v : string) :
  lists_ok cfg s -> lists_ok cfg (set_Option v s).
Proof. intros H. exact H. Qed.

Lemma lists_ok_recorded (s s' : State) :
  recorded cfg MLE_search s s' -> lists_ok cfg s -> lists_ok cfg s'.
Proof.
  intros Hrec [HT [HN [HA HB]]].
  destruct (recorded_fields cfg MLE_search s s' Hrec)
    as [_ [_ [HT' [HN' [la [lb [HA' HB']]]]]]].
  unfold lists_ok. rewrite HT', HN', HA', HB'.
  repeat split; try assumption.
  - intros E. apply app_eq_nil in E. destruct E. contradiction.
  - intros E. apply app_eq_nil in E. destruct E. contradiction.
Qed.

Lemma lists_ok_update (queue : pending) (s s' : State) :
  Dist.yields (root_update cfg MLE_search queue s) s' ->
  lists_ok cfg s -> lists_ok cfg s'.
Proof.
  apply (invariant_update cfg MLE_search (lists_ok cfg)).
  - apply lists_ok_counter.
  - intros s0 v _. apply lists_ok_click.
  - apply lists_ok_recorded.
Qed.

(** Lines 241-283 raise nothing when what [HideLines] dispatches raises
    nothing. *)
Lemma NextCallback_body_no_raise (Hide : State -> Dist.M State) (s : State) :
  lists_ok cfg s ->
  (forall t, lists_ok cfg t ->
             Dist.no_raise (Hide t) /\
             forall t', Dist.yields (Hide t) t' -> lists_ok cfg t') ->
  Dist.no_raise (NextCallback_body cfg MLE_search Hide s).
Proof.
  intros Hok Hhide. unfold NextCallback_body. simpl Option.
  destruct (String.eqb (Option s) EmptyString); [apply DistFacts.no_raise_ret|].
  destruct (Hhide _ (lists_ok_counter s Hok)) as [Hnr Hkeep].
  apply DistFacts.no_raise_bind; [exact Hnr|].
  intros s2 H2. destruct (Hkeep s2 H2) as [HT [HN [HA HB]]].
  destruct (nonempty_last _ HA) as [la [a Ea]].
  destruct (nonempty_last _ HB) as [lb [b Eb]].
  destruct (UpdateResults_completes
              (set_choice (choice s2 ++ [Option s2]) s2)
              la lb a b (choice s2) (Option s2) Ea Eb eq_refl HT HN)
    as [s1 E].
  rewrite E. apply DistFacts.no_raise_bind.
  - intros p r [Ep|[]]. inversion Ep. eauto.
  - intros s3 _. destruct (counter s3 <? MaxTrials cfg).
    + apply no_raise_PresentNextLines; apply next_StimIndex_total.
    + apply DistFacts.no_raise_ret.
Qed.

(** Whatever is pending, [root.update()] raises nothing. *)
Lemma root_update_no_raise (queue : pending) :
  forall s, lists_ok cfg s ->
            Dist.no_raise (root_update cfg MLE_search queue s).
Proof.
  induction queue as [|rest IH|rest IH|during IHd rest IHr]; intros s Hok;
    simpl.
  - apply DistFacts.no_raise_ret.
  - apply IH. exact Hok.
  - apply IH. exact Hok.
  - apply DistFacts.no_raise_bind.
    + apply NextCallback_body_no_raise; [exact Hok|].
      intros t Ht. split; [apply IHd; exact Ht|].
      intros t' Ht'. apply (lists_ok_update during t t' Ht' Ht).
    + intros s' Hs'. apply IHr.
      apply (lists_ok_update (press_Next during no_event) s s'); [|exact Hok].
      simpl. apply DistFacts.yields_bind. exists s'.
      split; [exact Hs' | apply DistFacts.yields_ret; reflexivity].
Qed.

(** With one count per level and a pair on record, every outcome of
    [NextCallback] is a state, whatever is pending when the lines are
    hidden. *)
Lemma NextCallback_no_raise (during : pending) (s : State) :
  lists_ok cfg s ->
  Dist.no_raise (NextCallback cfg MLE_search during s).
Proof.
  intros Hok. apply NextCallback_body_no_raise; [exact Hok|].
  intros t Ht. split; [apply root_update_no_raise; exact Ht|].
  intros t' Ht'. apply (lists_ok_update during t t' Ht' Ht).
Qed.

End Totality.

Lemma reachable_levels (cfg : Config)
    (MLE_search : Q -> Q -> string -> list Z -> list Q -> list Q -> OptimizeResult)
    (s : State) :
  reachable cfg MLE_search s -> StimLevels cfg <> [].
Proof.
  induction 1 as [s Hs | s s' _ IH _]; [|exact IH].
  intros E. unfold startup, InitialiseLines in Hs. rewrite E in Hs.
  destruct Hs as [p [H | []]]. discriminate.
Qed.

Lemma lists_ok_reachable (cfg : Config)
    (MLE_search : Q -> Q -> string -> list Z -> list Q -> list Q -> OptimizeResult)
    (s : State) :
  reachable cfg MLE_search s -> lists_ok cfg s.
Proof.
  apply reachable_invariant.
  - intros s0 Hs. apply yields_startup in Hs. destruct Hs as [a [b ->]].
    unfold lists_ok. simpl. unfold np_zeros. rewrite repeat_length.
    repeat split; discriminate.
  - apply lists_ok_counter.
  - intros s0 v _. apply lists_ok_click.
  - apply lists_ok_recorded.
Qed.

(** In a reachable state no press of Next raises, whatever the
    configuration and whatever is pending: the exceptions of the
    callbacks that [root.update()] dispatches never have to be handled. *)
Lemma callbacks_never_raise (cfg : Config)
    (MLE_search : Q -> Q -> string -> list Z -> list Q -> list Q -> OptimizeResult)
    (during : pending) (s : State) :
  reachable cfg MLE_search s ->
  Dist.no_raise (NextCallback cfg MLE_search during s).
Proof.
  intros Hr. apply NextCallback_no_raise.
  - apply (reachable_levels cfg MLE_search s Hr).
  - apply (lists_ok_reachable cfg MLE_search s Hr).
Qed.
(** * Further properties of the script *)

(** ** Sample sessions *)

Lemma levels_ok_script_config : levels_ok script_config.
Proof.
  split; [discriminate|]. split; [apply NoDup_np_arange|].
  apply Forall_forall. intros l Hl.
  apply in_np_arange in Hl. lia.
Qed.


Lemma calm_finished_screen :
  reachable_calm script_config never_converges finished_screen.
Proof.
  apply calm_step
    with (s := set_Option "A" (set_counter 30 first_screen)).
  - apply calm_step with (s := set_counter 30 first_screen).
    + apply (calm_idle_clicks script_config never_converges
               first_screen 30);
        [apply calm_first_screen | reflexivity | reflexivity].
    + apply calm_select; [reflexivity | left; reflexivity].
  - apply calm_next; [reflexivity | pick_outcome].
Qed.

Lemma reachable_finished_screen :
  reachable script_config never_converges finished_screen.
Proof. apply calm_reachable, calm_finished_screen. Qed.

(** ** Bookkeeping of a session *)

(** X1.  With distinct, non-negative levels, in every reachable state,
    whatever events were pending at the calls of [root.update()], the
    entries of [Total] sum to the number of recorded choices, and that
    number never exceeds [root.counter]. *)
Theorem X1_Total_sums_to_recorded_choices (cfg : Config)
    (MLE_search : Q -> Q -> string -> list Z -> list Q -> list Q -> OptimizeResult)
    (s : State) :
  levels_ok cfg ->
  reachable cfg MLE_search s ->
  (np_sum (Total s) == inject_Z (Z.of_nat (length (choice s))))%Q /\
  Z.of_nat (length (choice s)) <= counter s.
Proof.
  intros Hlv Hr.
  pose proof (ledger_ok_reachable cfg MLE_search Hlv s Hr) as Hok.
  split; [apply (ledger_sum cfg s Hok) | apply (ledger_counter cfg s Hok)].
Qed.

Lemma X1_Total_sums_to_recorded_choices_witness :
  (np_sum (Total second_screen_after_idle_click)
   == inject_Z (Z.of_nat (length (choice second_screen_after_idle_click))))%Q /\
  Z.of_nat (length (choice second_screen_after_idle_click))
  <= counter second_screen_after_idle_click.
Proof.
  apply (X1_Total_sums_to_recorded_choices script_config never_converges
           second_screen_after_idle_click).
  - apply levels_ok_script_config.
  - apply reachable_second_screen_after_idle_click.
Defined.



Section Report.

Variable cfg : Config.
Variable MLE_search :
  Q -> Q -> string -> list Z -> list Q -> list Q -> OptimizeResult.

Hypothesis Hlevels : levels_ok cfg.



End Report.



(** ** Weights of composed draws *)

Lemma Pr_app {A} (m1 m2 : Dist.M A) (P : A -> bool) :
  (Dist.Pr (m1 ++ m2) P == Dist.Pr m1 P + Dist.Pr m2 P)%Q.
Proof.
  induction m1 as [|[p [a|e]] t IH]; simpl.
  - ring.
  - destruct (P a); rewrite IH; ring.
  - exact IH.
Qed.

Lemma Pr_scale {A} (p : Q) (m : Dist.M A) (P : A -> bool) :
  (Dist.Pr (Dist.scale p m) P == p * Dist.Pr m P)%Q.
Proof.
  induction m as [|[q [a|e]] t IH]; simpl.
  - ring.
  - destruct (P a); rewrite IH; ring.
  - exact IH.
Qed.

Lemma yields_cons {A} (x : Q * result A) (m : Dist.M A) (a : A) :
  Dist.yields m a -> Dist.yields (x :: m) a.
Proof. intros [p H]. exists p. right. exact H. Qed.

Lemma yields_head {A} (p : Q) (a : A) (m : Dist.M A) :
  Dist.yields ((p, Ok a) :: m) a.
Proof. exists p. left. reflexivity. Qed.

(** When every continuation gives [P] the same probability [c], so does
    the composition, weighted by the chance that the first step returns. *)
Lemma Pr_bind_const {A B} (m : Dist.M A) (f : A -> Dist.M B)
    (P : B -> bool) (c : Q) :
  (forall a, Dist.yields m a -> (Dist.Pr (f a) P == c)%Q) ->
  (Dist.Pr (Dist.bind m f) P == c * Dist.Pr m (fun _ => true))%Q.
Proof.
  induction m as [|[p [a|e]] t IH]; intros Hf.
  - simpl. ring.
  - change (Dist.bind ((p, Ok a) :: t) f)
      with (Dist.scale p (f a) ++ Dist.bind t f).
    rewrite Pr_app, Pr_scale, (Hf a (yields_head p a t)).
    rewrite IH by (intros a' Ha'; apply Hf, yields_cons, Ha').
    simpl. ring.
  - change (Dist.bind ((p, Raise e) :: t) f)
      with ((p, Raise e) :: Dist.bind t f).
    simpl. apply IH. intros a' Ha'. apply Hf, yields_cons, Ha'.
Qed.

(** Two events that every continuation finds equally likely are equally
    likely after the composition. *)
Lemma Pr_bind_congr {A B} (m : Dist.M A) (f : A -> Dist.M B)
    (P P' : B -> bool) :
  (forall a, Dist.yields m a -> (Dist.Pr (f a) P == Dist.Pr (f a) P')%Q) ->
  (Dist.Pr (Dist.bind m f) P == Dist.Pr (Dist.bind m f) P')%Q.
Proof.
  induction m as [|[p [a|e]] t IH]; intros Hf.
  - reflexivity.
  - change (Dist.bind ((p, Ok a) :: t) f)
      with (Dist.scale p (f a) ++ Dist.bind t f).
    rewrite !Pr_app, !Pr_scale, (Hf a (yields_head p a t)).
    rewrite IH by (intros a' Ha'; apply Hf, yields_cons, Ha').
    reflexivity.
  - change (Dist.bind ((p, Raise e) :: t) f)
      with ((p, Raise e) :: Dist.bind t f).
    simpl. apply IH. intros a' Ha'. apply Hf, yields_cons, Ha'.
Qed.

Lemma filter_all {A} (l : list A) : filter (fun _ => true) l = l.
Proof. induction l as [|x t IH]; simpl; congruence. Qed.

Lemma Q_inverse_of_length (n : nat) :
  n <> 0%nat -> ((1 # Pos.of_nat n) * inject_Z (Z.of_nat n) == 1)%Q.
Proof.
  intros Hn. unfold Qeq, Qmult, inject_Z. simpl.
  rewrite Pos.mul_1_r, Z.mul_1_r.
  rewrite <- (positive_nat_Z (Pos.of_nat n)), Nat2Pos.id by exact Hn.
  destruct (Z.of_nat n); reflexivity.
Qed.

Lemma Pr_uniform_all {A} (l : list A) :
  l <> [] -> (Dist.Pr (Dist.uniform l) (fun _ => true) == 1)%Q.
Proof.
  intros Hne. rewrite DistFacts.Pr_uniform, filter_all.
  apply Q_inverse_of_length. destruct l; [congruence | discriminate].
Qed.

Lemma Pr_ret_all {A} (a : A) : (Dist.Pr (Dist.ret a) (fun _ => true) == 1)%Q.
Proof. simpl. ring. Qed.

Lemma Pr_NewLinesLengths_all (base add : Z) :
  (Dist.Pr (NewLinesLengths base add) (fun _ => true) == 1)%Q.
Proof. reflexivity. Qed.

(** ** A press of Next always returns *)

Section Certain.

Variable cfg : Config.
Variable MLE_search :
  Q -> Q -> string -> list Z -> list Q -> list Q -> OptimizeResult.

Hypothesis Hne : StimLevels cfg <> [].

Lemma Pr_random_choice_range_all :
  (Dist.Pr (random_choice (range (length (StimLevels cfg)))) (fun _ => true)
   == 1)%Q.
Proof.
  destruct (StimLevels cfg) as [|x t]; [congruence|].
  change (random_choice (range (length (x :: t))))
    with (Dist.uniform (range (length (x :: t)))).
  apply Pr_uniform_all. discriminate.
Qed.

Lemma next_StimIndex_certain (s : State) :
  (Dist.Pr (next_StimIndex cfg MLE_search s) (fun _ => true) == 1)%Q.
Proof.
  unfold next_StimIndex.
  destruct (Qlt_bool _ _); [apply Pr_random_choice_range_all|].
  destruct (success _); [|apply Pr_random_choice_range_all].
  set (alpha := x_0 _).
  destruct (nearest_index_spec cfg alpha Hne) as [n [E _]].
  rewrite (adaptive_index_unfold cfg alpha n E). reflexivity.
Qed.

Lemma GetNextLengths_certain (s : State) :
  (Dist.Pr (GetNextLengths cfg MLE_search s) (fun _ => true) == 1)%Q.
Proof.
  unfold GetNextLengths.
  rewrite Pr_bind_const with (c := 1%Q).
  - rewrite next_StimIndex_certain. ring.
  - intros i Hi.
    apply (proj2 (next_StimIndex_total cfg MLE_search Hne s)) in Hi.
    unfold len_StimLevels in Hi.
    destruct (getitem_in_range (StimLevels cfg) i) as [x [Hx _]]; [lia|].
    rewrite Hx. rewrite Pr_bind_const with (c := 1%Q).
    + simpl. ring.
    + intros add _. apply Pr_NewLinesLengths_all.
Qed.

Lemma PresentNextLines_certain (s : State) :
  (Dist.Pr (PresentNextLines cfg MLE_search s) (fun _ => true) == 1)%Q.
Proof.
  unfold PresentNextLines. rewrite Pr_bind_const with (c := 1%Q).
  - rewrite GetNextLengths_certain. ring.
  - intros ab _. apply Pr_ret_all.
Qed.

Lemma NextCallback_body_certain (Hide : State -> Dist.M State) (s : State) :
  lists_ok cfg s ->
  (forall t, lists_ok cfg t ->
             (Dist.Pr (Hide t) (fun _ => true) == 1)%Q /\
             forall t', Dist.yields (Hide t) t' -> lists_ok cfg t') ->
  (Dist.Pr (NextCallback_body cfg MLE_search Hide s) (fun _ => true) == 1)%Q.
Proof.
  intros Hok Hhide. unfold NextCallback_body. simpl Option.
  destruct (String.eqb (Option s) EmptyString); [apply Pr_ret_all|].
  destruct (Hhide _ (lists_ok_counter cfg s Hok)) as [Hone Hkeep].
  rewrite Pr_bind_const with (c := 1%Q); [rewrite Hone; ring|].
  intros s2 H2. destruct (Hkeep s2 H2) as [HT [HN [HA HB]]].
  destruct (nonempty_last _ HA) as [la [a Ea]].
  destruct (nonempty_last _ HB) as [lb [b Eb]].
  destruct (UpdateResults_completes cfg
              (set_choice (choice s2 ++ [Option s2]) s2)
              la lb a b (choice s2) (Option s2) Ea Eb eq_refl HT HN)
    as [s1 E].
  rewrite E. rewrite Pr_bind_const with (c := 1%Q).
  - simpl. ring.
  - intros s3 _. destruct (counter s3 <? MaxTrials cfg).
    + apply PresentNextLines_certain.
    + apply Pr_ret_all.
Qed.

Lemma root_update_certain (queue : pending) :
  forall s, lists_ok cfg s ->
            (Dist.Pr (root_update cfg MLE_search queue s) (fun _ => true)
             == 1)%Q.
Proof.
  induction queue as [|rest IH|rest IH|during IHd rest IHr]; intros s Hok;
    simpl.
  - ring.
  - apply IH. exact Hok.
  - apply IH. exact Hok.
  - rewrite Pr_bind_const with (c := 1%Q).
    + rewrite NextCallback_body_certain; [ring | exact Hok |].
      intros t Ht. split; [apply IHd; exact Ht|].
      intros t' Ht'. apply (lists_ok_update cfg MLE_search during t t' Ht' Ht).
    + intros s' Hs'. apply IHr.
      apply (lists_ok_update cfg MLE_search (press_Next during no_event) s s');
        [|exact Hok].
      simpl. apply DistFacts.yields_bind. exists s'.
      split; [exact Hs' | apply DistFacts.yields_ret; reflexivity].
Qed.

Lemma NextCallback_certain (during : pending) (s : State) :
  lists_ok cfg s ->
  (Dist.Pr (NextCallback cfg MLE_search during s) (fun _ => true) == 1)%Q.
Proof.
  intros Hok. apply NextCallback_body_certain; [exact Hok|].
  intros t Ht. split; [apply root_update_certain; exact Ht|].
  intros t' Ht'. apply (lists_ok_update cfg MLE_search during t t' Ht' Ht).
Qed.

End Certain.

(** X4.  With distinct, non-negative levels, in every reachable state with
    the widgets shown a press of Next returns, whatever clicks and presses
    are pending when [HideLines] calls [root.update()]: no outcome of
    [NextCallback] is an exception, and its outcomes that are states carry
    the whole probability. *)
Theorem X4_NextCallback_always_returns (cfg : Config)
    (MLE_search : Q -> Q -> string -> list Z -> list Q -> list Q -> OptimizeResult)
    (during : pending) (s : State) :
  levels_ok cfg ->
  reachable cfg MLE_search s ->
  widgets_shown s = true ->
  Dist.no_raise (NextCallback cfg MLE_search during s) /\
  (Dist.Pr (NextCallback cfg MLE_search during s) (fun _ => true) == 1)%Q.
Proof.
  intros Hlv Hr Hw.
  pose proof (lists_ok_reachable cfg MLE_search s Hr) as Hok.
  destruct Hlv as [Hne _]. split.
  - apply NextCallback_no_raise; assumption.
  - apply NextCallback_certain; assumption.
Qed.

Lemma X4_NextCallback_always_returns_witness :
  Dist.no_raise (NextCallback script_config never_converges
                              (press_Next no_event (click_B no_event))
                              (set_Option "A" first_screen)) /\
  (Dist.Pr (NextCallback script_config never_converges
                         (press_Next no_event (click_B no_event))
                         (set_Option "A" first_screen)) (fun _ => true)
   == 1)%Q.
Proof.
  apply (X4_NextCallback_always_returns script_config never_converges
           (press_Next no_event (click_B no_event))
           (set_Option "A" first_screen)).
  - apply levels_ok_script_config.
  - apply reachable_step with (s := first_screen).
    + apply reachable_first_screen.
    + apply step_select; [reflexivity | left; reflexivity].
  - reflexivity.
Defined.

(** X5.  Start of the script.  With an empty level array the first draw
    [np.random.choice(StimLevels)] raises ValueError and nothing else
    happens; with at least one level the first pair is always drawn: no
    exception, probability 1, and every initial state has the widgets
    shown, counter 0, no recorded choice, all counts 0 and nothing
    selected. *)
Theorem X5_startup (cfg : Config) :
  (StimLevels cfg = [] -> startup cfg = [(1%Q, Raise ValueError)]) /\
  (StimLevels cfg <> [] ->
   Dist.no_raise (startup cfg) /\
   (Dist.Pr (startup cfg) (fun _ => true) == 1)%Q /\
   forall s, Dist.yields (startup cfg) s ->
             widgets_shown s = true /\ counter s = 0 /\ choice s = [] /\
             Option s = EmptyString /\ plots s = [] /\
             NumCorrect s = np_zeros (length (StimLevels cfg)) /\
             Total s = np_zeros (length (StimLevels cfg)) /\
             length (lineA_length s) = 1%nat /\
             length (lineB_length s) = 1%nat).
Proof.
  split.
  - intros E. unfold startup, InitialiseLines. rewrite E. reflexivity.
  - intros Hne. split; [|split].
    + unfold startup, InitialiseLines.
      apply DistFacts.no_raise_bind; [|intros; apply DistFacts.no_raise_ret].
      apply DistFacts.no_raise_bind.
      * destruct (StimLevels cfg); [congruence|].
        apply DistFacts.no_raise_uniform.
      * intros add _. apply DistFacts.no_raise_bind;
          [apply no_raise_NewLinesLengths |
           intros; apply DistFacts.no_raise_ret].
    + unfold startup, InitialiseLines.
      rewrite Pr_bind_const with (c := 1%Q); [|intros; apply Pr_ret_all].
      rewrite Pr_bind_const with (c := 1%Q).
      * destruct (StimLevels cfg) as [|x t]; [congruence|].
        change (np_random_choice (x :: t)) with (Dist.uniform (x :: t)).
        rewrite Pr_uniform_all by discriminate. ring.
      * intros add _. rewrite Pr_bind_const with (c := 1%Q);
          [|intros; apply Pr_ret_all].
        rewrite Pr_NewLinesLengths_all. ring.
    + intros s Hs. apply yields_startup in Hs. destruct Hs as [a [b ->]].
      simpl. repeat split.
Qed.

Lemma X5_startup_witness :
  startup (mkConfig 30 [] (1 # 2) (1 # 100) "Logistic" 150)
  = [(1%Q, Raise ValueError)] /\
  (Dist.no_raise (startup script_config) /\
   (Dist.Pr (startup script_config) (fun _ => true) == 1)%Q /\
   forall s, Dist.yields (startup script_config) s ->
             widgets_shown s = true /\ counter s = 0 /\ choice s = [] /\
             Option s = EmptyString /\ plots s = [] /\
             NumCorrect s = np_zeros (length (StimLevels script_config)) /\
             Total s = np_zeros (length (StimLevels script_config)) /\
             length (lineA_length s) = 1%nat /\
             length (lineB_length s) = 1%nat).
Proof.
  split.
  - apply (proj1 (X5_startup (mkConfig 30 [] (1 # 2) (1 # 100) "Logistic" 150))).
    reflexivity.
  - apply (proj2 (X5_startup script_config)). discriminate.
Defined.

(** ** Shape of the recorded sequences *)

Lemma radio_value_deselect (v : string) (s : State) :
  radio_value (Option s) -> radio_value (Option (deselect v s)).
Proof.
  intros H. unfold deselect. destruct (String.eqb (Option s) v); [|exact H].
  left. reflexivity.
Qed.

Lemma Option_deselect_both (s : State) :
  radio_value (Option s) ->
  Option (deselect "B" (deselect "A" s)) = EmptyString.
Proof.
  intros [E | [E | E]]; unfold deselect; rewrite E; simpl; rewrite ?E;
    simpl; auto.
Qed.

Section Shape.

Variable cfg : Config.
Variable MLE_search :
  Q -> Q -> string -> list Z -> list Q -> list Q -> OptimizeResult.

Lemma Update_Option (s s' : State) :
  UpdateResultsVariablesByChoice cfg s = Ok s' -> Option s' = Option s.
Proof.
  intros HU. apply UpdateResults_shape in HU.
  destruct HU as [la [a [lb [b [cs [c [_ [_ [_ HU]]]]]]]]]. cbv zeta in HU.
  destruct HU as [[-> _] | [[-> _] | [-> _]]]; reflexivity.
Qed.

Lemma yields_NewLinesLengths_pair (add a b : Z) :
  In add (StimLevels cfg) ->
  Dist.yields (NewLinesLengths (size_base cfg) add) (a, b) ->
  presented_pair cfg a b.
Proof.
  intros Hadd H. apply yields_NewLinesLengths in H.
  exists add. split; [exact Hadd|]. exact H.
Qed.

Lemma yields_GetNextLengths_pair (s : State) (a b : Z) :
  Dist.yields (GetNextLengths cfg MLE_search s) (a, b) ->
  presented_pair cfg a b.
Proof.
  unfold GetNextLengths. intros H.
  apply DistFacts.yields_bind in H. destruct H as [i [_ H]].
  apply DistFacts.yields_bind in H. destruct H as [add [Hadd H]].
  apply DistFacts.yields_lift, getitem_Ok_In in Hadd.
  eapply yields_NewLinesLengths_pair; eauto.
Qed.

Lemma shape_ok_startup (s : State) :
  Dist.yields (startup cfg) s -> shape_ok cfg s.
Proof.
  unfold startup, InitialiseLines. intros H.
  apply DistFacts.yields_bind in H. destruct H as [s1 [H1 H2]].
  apply DistFacts.yields_ret in H2. subst s.
  apply DistFacts.yields_bind in H1. destruct H1 as [add [Hadd H1]].
  apply DistFacts.yields_bind in H1. destruct H1 as [[a b] [Hab H1]].
  apply DistFacts.yields_ret in H1. subst s1.
  apply yields_np_random_choice in Hadd.
  split; [|split]; simpl.
  - constructor; [|constructor].
    eapply yields_NewLinesLengths_pair; eauto.
  - left. reflexivity.
  - constructor.
Qed.

Lemma pairs_ok_recorded (s s' : State) :
  recorded cfg MLE_search s s' -> pairs_ok cfg s -> pairs_ok cfg s'.
Proof.
  intros [s1 [HU Hend]] [Hpairs Hradio].
  pose proof (Update_Option _ _ HU) as Ho. apply Update_fields in HU.
  simpl in HU, Ho. destruct HU as [_ [_ [_ [_ [HA1 [HB1 _]]]]]].
  destruct Hend as [[_ Hy] | [_ ->]].
  - apply yields_PresentNextLines in Hy. destruct Hy as [a [b [Hab ->]]].
    apply yields_GetNextLengths_pair in Hab.
    split; autorewrite with fields; simpl.
    + rewrite HA1, HB1. apply Forall2_app; [exact Hpairs|].
      constructor; [exact Hab | constructor].
    + do 2 apply radio_value_deselect. simpl. rewrite Ho. exact Hradio.
  - split; simpl.
    + rewrite HA1, HB1. exact Hpairs.
    + rewrite Ho. exact Hradio.
Qed.

Lemma pairs_ok_click (s : State) (v : string) :
  v = "A"%string \/ v = "B"%string -> pairs_ok cfg s ->
  pairs_ok cfg (set_Option v s).
Proof. intros Hv [Hpairs _]. split; simpl; [exact Hpairs | right; exact Hv]. Qed.

(** In every reachable state, whatever was pending at the updates, every
    presented pair was built from a level and the radiobutton variable
    holds one of its three values. *)
Lemma pairs_ok_reachable (s : State) :
  reachable cfg MLE_search s -> pairs_ok cfg s.
Proof.
  apply reachable_invariant.
  - intros s0 Hs. apply shape_ok_startup in Hs.
    destruct Hs as [H1 [H2 _]]. split; assumption.
  - intros s0 H. exact H.
  - intros s0 v Hv. apply pairs_ok_click. exact Hv.
  - apply pairs_ok_recorded.
Qed.

Lemma pairs_ok_update (queue : pending) (s s' : State) :
  Dist.yields (root_update cfg MLE_search queue s) s' ->
  pairs_ok cfg s -> pairs_ok cfg s'.
Proof.
  apply (invariant_update cfg MLE_search (pairs_ok cfg)).
  - intros s0 H. exact H.
  - intros s0 v Hv. apply pairs_ok_click. exact Hv.
  - apply pairs_ok_recorded.
Qed.

Lemma shape_ok_step (s s' : State) :
  shape_ok cfg s -> step_calm cfg MLE_search s s' -> shape_ok cfg s'.
Proof.
  intros [Hpairs [Hradio Hchoice]] Hstep.
  destruct Hstep as [s v _ Hv | s s' _ Hy].
  - split; [|split]; simpl; auto. right. exact Hv.
  - apply yields_NextCallback in Hy.
    destruct Hy as [[_ ->] | [Hsel [s1 [HU [[_ Hy] | [_ ->]]]]]].
    + split; [|split]; simpl; auto.
    + pose proof (Update_Option _ _ HU) as Ho. apply Update_fields in HU.
      simpl in HU, Ho.
      destruct HU as [_ [_ [_ [Hch1 [HA1 [HB1 _]]]]]].
      apply yields_PresentNextLines in Hy. destruct Hy as [a [b [Hab ->]]].
      apply yields_GetNextLengths_pair in Hab.
      split; [|split]; autorewrite with fields; simpl.
      * rewrite HA1, HB1. apply Forall2_app; [exact Hpairs|].
        constructor; [exact Hab | constructor].
      * do 2 apply radio_value_deselect. simpl. rewrite Ho. exact Hradio.
      * rewrite Hch1. apply Forall_app. split; [exact Hchoice|].
        constructor; [|constructor].
        destruct Hradio as [E | E]; [contradiction | exact E].
    + pose proof (Update_Option _ _ HU) as Ho. apply Update_fields in HU.
      simpl in HU, Ho.
      destruct HU as [_ [_ [_ [Hch1 [HA1 [HB1 _]]]]]].
      split; [|split]; simpl.
      * rewrite HA1, HB1. exact Hpairs.
      * rewrite Ho. exact Hradio.
      * rewrite Hch1. apply Forall_app. split; [exact Hchoice|].
        constructor; [|constructor].
        destruct Hradio as [E | E]; [contradiction | exact E].
Qed.

Lemma shape_ok_calm (s : State) :
  reachable_calm cfg MLE_search s -> shape_ok cfg s.
Proof.
  induction 1 as [s Hs | s s' _ IH Hstep].
  - apply shape_ok_startup. exact Hs.
  - eapply shape_ok_step; eauto.
Qed.

(** What a press of Next with a selection does to the counter, the
    recorded choices and the widgets when no event is pending. *)
Lemma scored_press (s s' : State) :
  widgets_shown s = true ->
  Option s <> EmptyString ->
  Dist.yields (NextCallback cfg MLE_search no_event s) s' ->
  counter s' = counter s + 1 /\
  choice s' = choice s ++ [Option s] /\
  (widgets_shown s' = false <-> MaxTrials cfg <= counter s + 1).
Proof.
  intros Hw Hsel Hy. apply yields_NextCallback in Hy.
  destruct Hy as [[E _] | [_ [s1 [HU [[Hlt Hy] | [Hge ->]]]]]];
    [contradiction | |].
  - apply Update_fields in HU. simpl in HU.
    destruct HU as [_ [_ [Hc1 [Hch1 [_ [_ [Hw1 _]]]]]]].
    apply yields_PresentNextLines in Hy. destruct Hy as [a [b [_ ->]]].
    autorewrite with fields. simpl. rewrite Hc1, Hch1, Hw1, Hw.
    repeat split; [discriminate | lia].
  - apply Update_fields in HU. simpl in HU.
    destruct HU as [_ [_ [Hc1 [Hch1 _]]]].
    simpl. rewrite Hc1, Hch1. repeat split; lia.
Qed.


End Shape.

(** X6.  In every reachable state, whatever events were pending at the
    calls of [root.update()], the two length sequences have the same
    length, and at every position one line has the baseline length and the
    other is longer by one of the levels. *)
Theorem X6_presented_pairs_come_from_levels (cfg : Config)
    (MLE_search : Q -> Q -> string -> list Z -> list Q -> list Q -> OptimizeResult)
    (s : State) :
  reachable cfg MLE_search s ->
  Forall2 (presented_pair cfg) (lineA_length s) (lineB_length s) /\
  length (lineA_length s) = length (lineB_length s).
Proof.
  intros Hr. destruct (pairs_ok_reachable cfg MLE_search s Hr) as [H _].
  split; [exact H | eapply Forall2_length; exact H].
Qed.

Lemma X6_presented_pairs_come_from_levels_witness :
  Forall2 (presented_pair script_config)
          (lineA_length second_screen) (lineB_length second_screen) /\
  length (lineA_length second_screen) = length (lineB_length second_screen).
Proof.
  apply (X6_presented_pairs_come_from_levels script_config never_converges
           second_screen).
  apply reachable_second_screen.
Defined.



(** X8.  In every state reached without an event pending at a call of
    [root.update()], the radiobutton variable holds the empty string, 'A'
    or 'B', and every recorded choice is 'A' or 'B': an empty selection is
    never recorded. *)
Theorem X8_only_A_or_B_recorded (cfg : Config)
    (MLE_search : Q -> Q -> string -> list Z -> list Q -> list Q -> OptimizeResult)
    (s : State) :
  reachable_calm cfg MLE_search s ->
  radio_value (Option s) /\
  Forall (fun c => c = "A"%string \/ c = "B"%string) (choice s).
Proof.
  intros Hr. destruct (shape_ok_calm cfg MLE_search s Hr) as [_ H].
  exact H.
Qed.

Lemma X8_only_A_or_B_recorded_witness :
  radio_value (Option second_screen) /\
  Forall (fun c => c = "A"%string \/ c = "B"%string) (choice second_screen).
Proof.
  apply (X8_only_A_or_B_recorded script_config never_converges second_screen).
  apply calm_second_screen.
Defined.

(** X9.  After a press of Next that records a choice and does not end the
    session, whatever was pending when the lines were hidden, both
    radiobuttons are deselected: the variable is empty again, so a further
    press of Next without a new selection records nothing and only adds
    one to [root.counter]. *)
Theorem X9_selection_cleared_after_trial (cfg : Config)
    (MLE_search : Q -> Q -> string -> list Z -> list Q -> list Q -> OptimizeResult)
    (during later : pending) (s s' : State) :
  reachable cfg MLE_search s ->
  widgets_shown s = true ->
  Option s <> EmptyString ->
  Dist.yields (NextCallback cfg MLE_search during s) s' ->
  widgets_shown s' = true ->
  Option s' = EmptyString /\
  NextCallback cfg MLE_search later s'
  = Dist.ret (set_counter (counter s' + 1) s').
Proof.
  intros Hr Hw Hsel Hy Hw'.
  pose proof (pairs_ok_reachable cfg MLE_search s Hr) as Hok.
  assert (Ho : Option s' = EmptyString).
  { apply yields_NextCallback_body in Hy.
    destruct Hy as [[E _] | [_ [s2 [H2 [s1 [HU [[_ Hy] | [_ ->]]]]]]]];
      [contradiction | | discriminate].
    apply pairs_ok_update in H2; [|destruct Hok; split; assumption].
    destruct H2 as [_ Hradio].
    pose proof (Update_Option _ _ _ HU) as Ho1. simpl in Ho1.
    apply yields_PresentNextLines in Hy. destruct Hy as [a [b [_ ->]]].
    apply Option_deselect_both. simpl. rewrite Ho1. exact Hradio. }
  split; [exact Ho | apply NextCallback_idle; exact Ho].
Qed.

Lemma X9_selection_cleared_after_trial_witness :
  Option second_screen = EmptyString /\
  NextCallback script_config never_converges (click_A no_event) second_screen
  = Dist.ret (set_counter (counter second_screen + 1) second_screen).
Proof.
  apply (X9_selection_cleared_after_trial script_config never_converges
           no_event (click_A no_event)
           (set_Option "A" first_screen) second_screen).
  - apply reachable_step with (s := first_screen).
    + apply reachable_first_screen.
    + apply step_select; [reflexivity | left; reflexivity].
  - reflexivity.
  - discriminate.
  - pick_outcome.
  - reflexivity.
Defined.



(** X11.  A completed scoring call changes nothing but the two count
    vectors, and keeps their lengths: the counter, the recorded choices,
    both length sequences, the selection, the widgets and the plots are as
    before. *)
Theorem X11_scoring_touches_only_counts (cfg : Config) (s s' : State) :
  UpdateResultsVariablesByChoice cfg s = Ok s' ->
  counter s' = counter s /\ choice s' = choice s /\
  lineA_length s' = lineA_length s /\ lineB_length s' = lineB_length s /\
  Option s' = Option s /\ widgets_shown s' = widgets_shown s /\
  plots s' = plots s /\
  length (Total s') = length (Total s) /\
  length (NumCorrect s') = length (NumCorrect s).
Proof.
  intros HU. pose proof (Update_Option cfg s s' HU) as Ho.
  apply Update_fields in HU.
  destruct HU as [HT [HN [Hc [Hch [HA [HB [Hw Hp]]]]]]].
  repeat split; assumption.
Qed.

Lemma X11_scoring_touches_only_counts_witness :
  exists s',
    UpdateResultsVariablesByChoice script_config
      (set_choice ["B"%string] first_screen) = Ok s' /\
    counter s' = 0 /\ choice s' = ["B"%string] /\
    lineA_length s' = [160] /\ lineB_length s' = [150] /\
    Option s' = EmptyString /\ widgets_shown s' = true /\
    plots s' = [] /\
    length (Total s') = 15%nat /\ length (NumCorrect s') = 15%nat.
Proof.
  eexists. split; [reflexivity|].
  apply (X11_scoring_touches_only_counts script_config
           (set_choice ["B"%string] first_screen)).
  reflexivity.
Defined.

(** X12.  A press of Next with a selection made, while the widgets are
    shown and no event is pending when [HideLines] calls [root.update()]:
    every outcome has [root.counter] one higher and the selection appended
    to the recorded choices, and the session is finished by the press
    exactly when the incremented counter has reached [MaxTrials]. *)
Theorem X12_press_with_selection (cfg : Config)
    (MLE_search : Q -> Q -> string -> list Z -> list Q -> list Q -> OptimizeResult)
    (s s' : State) :
  widgets_shown s = true ->
  Option s <> EmptyString ->
  Dist.yields (NextCallback cfg MLE_search no_event s) s' ->
  counter s' = counter s + 1 /\
  choice s' = choice s ++ [Option s] /\
  (Finished s' <-> MaxTrials cfg <= counter s + 1).
Proof.
  intros Hw Hsel Hy.
  destruct (scored_press cfg MLE_search s s' Hw Hsel Hy) as [Hc [Hch Hfin]].
  unfold Finished. split; [exact Hc|]. split; [exact Hch | exact Hfin].
Qed.

Lemma X12_press_with_selection_witness :
  counter second_screen = counter (set_Option "A" first_screen) + 1 /\
  choice second_screen
  = choice (set_Option "A" first_screen) ++ [Option (set_Option "A" first_screen)] /\
  (Finished second_screen
   <-> MaxTrials script_config <= counter (set_Option "A" first_screen) + 1).
Proof.
  apply (X12_press_with_selection script_config never_converges
           (set_Option "A" first_screen) second_screen).
  - reflexivity.
  - discriminate.
  - pick_outcome.
Defined.

(** ** Sides and levels of the next pair *)

Lemma NewLinesLengths_sides (base add : Z) :
  (Dist.Pr (NewLinesLengths base add) A_longer
   == Dist.Pr (NewLinesLengths base add) B_longer)%Q.
Proof.
  change (NewLinesLengths base add)
    with [((1 # 2)%Q, Ok (base + add, base));
          ((1 # 2)%Q, Ok (base, base + add))].
  unfold A_longer, B_longer. cbn [Dist.Pr fst snd].
  destruct (base + add >? base), (base >? base + add); ring.
Qed.

(** X13.  Whatever the state, the fit and the levels, the next pair has
    line A longer than line B exactly as often as line B longer than
    line A: the selection of the level never biases the side. *)
Theorem X13_next_pair_favours_no_side (cfg : Config)
    (MLE_search : Q -> Q -> string -> list Z -> list Q -> list Q -> OptimizeResult)
    (s : State) :
  (Dist.Pr (GetNextLengths cfg MLE_search s) A_longer
   == Dist.Pr (GetNextLengths cfg MLE_search s) B_longer)%Q.
Proof.
  unfold GetNextLengths.
  apply Pr_bind_congr. intros i _.
  apply Pr_bind_congr. intros add _.
  apply NewLinesLengths_sides.
Qed.

(** ** Where the lines are drawn *)

Lemma Forall2_In_l {A B} (R : A -> B -> Prop) (la : list A) (lb : list B) (a : A) :
  Forall2 R la lb -> In a la -> exists b, R a b.
Proof.
  induction 1 as [|x y la lb Hxy _ IH]; intros Hin; [destruct Hin|].
  destruct Hin as [<- | Hin]; eauto.
Qed.

Lemma Forall2_In_r {A B} (R : A -> B -> Prop) (la : list A) (lb : list B) (b : B) :
  Forall2 R la lb -> In b lb -> exists a, R a b.
Proof.
  induction 1 as [|x y la lb Hxy _ IH]; intros Hin; [destruct Hin|].
  destruct Hin as [<- | Hin]; eauto.
Qed.

(** *** Doubles that are exact *)

Lemma round_half_even_multiple (k b : Z) :
  0 < b -> round_half_even (k * b) b = k.
Proof.
  intros Hb. unfold round_half_even.
  rewrite Z.div_mul by lia. rewrite Z.mod_mul by lia.
  destruct (Z.ltb_spec (2 * 0) b); [reflexivity | lia].
Qed.

(** The exponent found for a half-integer below [2^52]. *)
Lemma floor_log2_half (m d K : Z) :
  0 < m -> 0 < d -> 2 * m = K * d -> K < 2 ^ 53 ->
  -1 <= floor_log2 m d <= 51.
Proof.
  intros Hm Hd HK Hlt.
  assert (HK0 : 0 < K) by nia.
  pose proof (Z.log2_spec m Hm) as [Hm1 Hm2].
  pose proof (Z.log2_spec d Hd) as [Hd1 Hd2].
  pose proof (Z.log2_nonneg m) as Hlm. pose proof (Z.log2_nonneg d) as Hld.
  set (lm := Z.log2 m) in *. set (ld := Z.log2 d) in *.
  assert (Hup : lm - ld <= 52).
  { destruct (Z.le_gt_cases (lm - ld) 52) as [H|H]; [exact H|exfalso].
    assert (2 ^ (ld + 1 + 52) <= 2 ^ lm) by (apply Z.pow_le_mono_r; lia).
    rewrite Z.pow_add_r in H0 by lia.
    unfold Z.succ in *.
    assert (E53 : 2 ^ 53 = 2 * 2 ^ 52) by reflexivity.
    nia. }
  assert (Hlow : -1 <= lm - ld).
  { destruct (Z.le_gt_cases (-1) (lm - ld)) as [H|H]; [exact H|exfalso].
    assert (2 ^ (lm + 1 + 1) <= 2 ^ ld) by (apply Z.pow_le_mono_r; lia).
    rewrite (Z.pow_add_r 2 (lm + 1) 1) in H0 by lia.
    unfold Z.succ in *. change (2 ^ 1) with 2 in H0. nia. }
  unfold floor_log2. fold lm ld.
  destruct (Z.leb_spec 0 (lm - ld)) as [H0|H0].
  - destruct (Z.ltb_spec m (d * 2 ^ (lm - ld))) as [Hb|Hb]; [lia|].
    split; [lia|].
    destruct (Z.eq_dec (lm - ld) 52) as [E|E]; [|lia].
    rewrite E in Hb. assert (E53 : 2 ^ 53 = 2 * 2 ^ 52) by reflexivity. nia.
  - assert (E : lm - ld = -1) by lia. rewrite E.
    change (- -1) with 1. change (2 ^ 1) with 2.
    destruct (Z.ltb_spec (m * 2) d) as [Hb|Hb]; [nia | lia].
Qed.

(** Half-integers of magnitude below [2^52] are doubles. *)
Lemma round_binary64_half (x : Q) (k : Z) :
  (x == k # 2)%Q -> Z.abs k < 2 ^ 53 -> (round_binary64 x == x)%Q.
Proof.
  intros Hx Hk. unfold Qeq in Hx. simpl in Hx.
  assert (HK0 : 2 * Z.abs (Qnum x) = Z.abs k * Z.pos (Qden x)).
  { pose proof (Pos2Z.is_pos (Qden x)).
    destruct (Z.abs_spec (Qnum x)) as [[? ->]|[? ->]];
      destruct (Z.abs_spec k) as [[? ->]|[? ->]]; nia. }
  unfold round_binary64. cbv zeta.
  destruct (Z.eqb_spec (Z.abs (Qnum x)) 0) as [E0|E0].
  - unfold Qeq. simpl. lia.
  - set (m := Z.abs (Qnum x)) in *. set (d := Z.pos (Qden x)) in *.
    assert (Hm : 0 < m) by lia. assert (Hd : 0 < d) by (unfold d; lia).
    assert (HK : 2 * m = Z.abs k * d).
    { unfold m, d. exact HK0. }
    pose proof (floor_log2_half m d (Z.abs k) Hm Hd HK Hk) as [He1 He2].
    set (e := floor_log2 m d) in *.
    rewrite Z.max_l by lia.
    destruct (Z.leb_spec 0 (e - 52)) as [Hq|Hq]; [lia|].
    replace (- (e - 52)) with (1 + (51 - e)) by lia.
    rewrite Z.pow_add_r by lia. change (2 ^ 1) with 2.
    replace (m * (2 * 2 ^ (51 - e))) with ((Z.abs k * 2 ^ (51 - e)) * d) by nia.
    rewrite round_half_even_multiple by exact Hd.
    assert (Hp : 0 < 2 ^ (51 - e)) by (apply Z.pow_pos_nonneg; lia).
    assert (Hr : (Qred (inject_Z (Z.abs k * 2 ^ (51 - e)) * pow2 (e - 52))
                  == m # Qden x)%Q).
    { rewrite Qred_correct. unfold pow2.
      destruct (Z.leb_spec 0 (e - 52)); [lia|].
      replace (- (e - 52)) with (1 + (51 - e)) by lia.
      rewrite Z.pow_add_r by lia. change (2 ^ 1) with 2.
      unfold Qeq, Qmult, inject_Z. cbn [Qnum Qden].
      rewrite Pos.mul_1_l, Z2Pos.id by lia. fold d.
      clearbody m d. generalize dependent (2 ^ (51 - e)). intros P _. nia. }
    destruct (Z.ltb_spec (Qnum x) 0) as [Hs|Hs].
    + rewrite Hr. unfold Qeq, Qopp. cbn [Qnum Qden]. unfold m. lia.
    + rewrite Hr. unfold Qeq. cbn [Qnum Qden]. unfold m. lia.
Qed.

Lemma fits_double_half (r : Q) (k : Z) :
  (r == k # 2)%Q -> Z.abs k < 2 ^ 53 -> fits_double r = true.
Proof.
  intros Hr Hk. unfold fits_double. apply Qlt_bool_iff.
  rewrite Hr. change (pow2 1024) with (inject_Z (2 ^ 1024)).
  assert (H : 2 ^ 53 < 2 ^ 1024) by (apply Z.pow_lt_mono_r; lia).
  unfold Qlt, Qabs, inject_Z. cbn [Qnum Qden].
  generalize dependent (2 ^ 1024). generalize dependent (2 ^ 53).
  intros a Ha b Hb. lia.
Qed.

(** For a length of magnitude up to [2^51] the float operations of lines
    97-98 are exact: the segment runs from [(canvas_height - size_line)/2]
    to [(canvas_height + size_line)/2] on the centre line. *)
Lemma LinesCoordinates_exact (size_line : Z) :
  Z.abs size_line <= 2 ^ 51 ->
  exists x y1 y2,
    LinesCoordinates size_line = Ok (x, y1, x, y2) /\
    (x == inject_Z canvas_width / 2)%Q /\
    (y1 == (canvas_height - size_line) # 2)%Q /\
    (y2 == (canvas_height + size_line) # 2)%Q.
Proof.
  intros Hs. assert (E51 : 2 ^ 53 = 4 * 2 ^ 51) by reflexivity.
  assert (Hh : canvas_height = 500) by reflexivity.
  unfold LinesCoordinates, int_true_div, float_of_int.
  set (r1 := round_binary64 (inject_Z (canvas_height - size_line) / inject_Z 2)).
  assert (H1 : (r1 == (canvas_height - size_line) # 2)%Q).
  { unfold r1. rewrite (round_binary64_half _ (canvas_height - size_line)).
    - unfold Qeq. simpl. lia.
    - unfold Qeq. simpl. lia.
    - lia. }
  rewrite (fits_double_half r1 (canvas_height - size_line) H1) by lia.
  cbn [rbind].
  set (r2 := round_binary64 (inject_Z size_line)).
  assert (H2 : (r2 == (2 * size_line) # 2)%Q).
  { unfold r2. rewrite (round_binary64_half _ (2 * size_line)).
    - unfold Qeq, inject_Z. cbn [Qnum Qden]. lia.
    - unfold Qeq, inject_Z. cbn [Qnum Qden]. lia.
    - lia. }
  rewrite (fits_double_half r2 (2 * size_line) H2) by lia.
  cbn [rbind].
  assert (H12 : (r1 + r2 == (canvas_height + size_line) # 2)%Q).
  { rewrite H1, H2. unfold Qeq, Qplus. cbn [Qnum Qden]. lia. }
  assert (H3 : (round_binary64 (r1 + r2) == (canvas_height + size_line) # 2)%Q).
  { rewrite (round_binary64_half _ (canvas_height + size_line));
      [exact H12 | exact H12 | lia]. }
  exists (round_binary64 (inject_Z canvas_width / inject_Z 2)), r1,
    (round_binary64 (r1 + r2)).
  split; [reflexivity|]. split; [vm_compute; reflexivity|].
  split; [exact H1 | exact H3].
Qed.

(** Beyond [2^53] the floats are no longer exact: the segment drawn for
    [2^53 + 1] has length [2^53 + 1/2]. *)
Lemma LinesCoordinates_inexact :
  exists x y1 y2,
    LinesCoordinates (2 ^ 53 + 1) = Ok (x, y1, x, y2) /\
    (y2 - y1 == inject_Z (2 ^ 53) + (1 # 2))%Q /\
    ~ (y2 - y1 == inject_Z (2 ^ 53 + 1))%Q.
Proof.
  eexists _, _, _. split; [vm_compute; reflexivity|].
  split; [vm_compute; reflexivity|].
  unfold not. vm_compute. discriminate.
Qed.

Lemma LinesCoordinates_inside (size_line : Z) :
  0 <= size_line <= canvas_height ->
  exists x y1 y2,
    LinesCoordinates size_line = Ok (x, y1, x, y2) /\
    (0 <= y1)%Q /\ (y1 <= y2)%Q /\ (y2 <= inject_Z canvas_height)%Q.
Proof.
  intros [Hlo Hhi]. assert (Hh : canvas_height = 500) by reflexivity.
  destruct (LinesCoordinates_exact size_line) as [x [y1 [y2 [E [_ [H1 H2]]]]]].
  { assert (2 ^ 9 <= 2 ^ 51) by (apply Z.pow_le_mono_r; lia).
    change (2 ^ 9) with 512 in H. lia. }
  exists x, y1, y2. split; [exact E|].
  rewrite H1, H2. unfold Qle, inject_Z. cbn [Qnum Qden]. lia.
Qed.

(** X14.  For every [size_line] of magnitude up to [2^51] the float
    operations of [LinesCoordinates] are exact and raise nothing: it
    returns a vertical segment on the centre line of the canvas whose
    length is exactly [size_line] and whose midpoint is the middle of the
    canvas.  In particular the segment [HideLines] draws for length 0 is a
    single point. *)
Theorem X14_LinesCoordinates_geometry (size_line : Z) :
  Z.abs size_line <= 2 ^ 51 ->
  exists x y1 y2,
    LinesCoordinates size_line = Ok (x, y1, x, y2) /\
    (x * 2 == inject_Z canvas_width)%Q /\
    (y2 - y1 == inject_Z size_line)%Q /\
    (y1 + y2 == inject_Z canvas_height)%Q.
Proof.
  intros Hs.
  destruct (LinesCoordinates_exact size_line Hs)
    as [x [y1 [y2 [E [Hx [H1 H2]]]]]].
  exists x, y1, y2. split; [exact E|]. split; [|split].
  - rewrite Hx. reflexivity.
  - rewrite H1, H2. unfold Qeq, Qminus, Qplus, Qopp, inject_Z.
    cbn [Qnum Qden]. lia.
  - rewrite H1, H2. unfold Qeq, Qplus, inject_Z. cbn [Qnum Qden]. lia.
Qed.

Lemma X14_LinesCoordinates_geometry_witness :
  exists x y1 y2,
    LinesCoordinates 0 = Ok (x, y1, x, y2) /\
    (x * 2 == inject_Z canvas_width)%Q /\
    (y2 - y1 == inject_Z 0)%Q /\
    (y1 + y2 == inject_Z canvas_height)%Q.
Proof.
  apply (X14_LinesCoordinates_geometry 0). vm_compute. discriminate.
Defined.

(** X15.  When the baseline is non-negative and every level [l] satisfies
    [0 <= l] and [size_base + l <= canvas_height], every length ever
    presented in a reachable state is at least the baseline, and
    [LinesCoordinates] returns for it, without an exception, a segment
    that lies inside the canvas. *)
Theorem X15_presented_lines_fit_canvas (cfg : Config)
    (MLE_search : Q -> Q -> string -> list Z -> list Q -> list Q -> OptimizeResult)
    (s : State) (len : Z) :
  0 <= size_base cfg ->
  Forall (fun l => 0 <= l /\ size_base cfg + l <= canvas_height)
         (StimLevels cfg) ->
  reachable cfg MLE_search s ->
  In len (lineA_length s ++ lineB_length s) ->
  size_base cfg <= len <= canvas_height /\
  exists x y1 y2,
    LinesCoordinates len = Ok (x, y1, x, y2) /\
    (0 <= y1)%Q /\ (y1 <= y2)%Q /\ (y2 <= inject_Z canvas_height)%Q.
Proof.
  intros Hbase Hlv Hr Hin.
  destruct (pairs_ok_reachable cfg MLE_search s Hr) as [Hpairs _].
  rewrite Forall_forall in Hlv.
  assert (Hlen : size_base cfg <= len <= canvas_height).
  { apply in_app_or in Hin. destruct Hin as [Hin | Hin].
    - destruct (Forall2_In_l _ _ _ _ Hpairs Hin) as [b [l [Hl Hab]]].
      specialize (Hlv l Hl). lia.
    - destruct (Forall2_In_r _ _ _ _ Hpairs Hin) as [a [l [Hl Hab]]].
      specialize (Hlv l Hl). lia. }
  split; [exact Hlen|].
  apply LinesCoordinates_inside. lia.
Qed.

Lemma X15_presented_lines_fit_canvas_witness :
  size_base script_config <= 153 <= canvas_height /\
  exists x y1 y2,
    LinesCoordinates 153 = Ok (x, y1, x, y2) /\
    (0 <= y1)%Q /\ (y1 <= y2)%Q /\ (y2 <= inject_Z canvas_height)%Q.
Proof.
  apply (X15_presented_lines_fit_canvas script_config never_converges
           second_screen 153).
  - vm_compute. discriminate.
  - apply Forall_forall. intros l Hl. apply in_np_arange in Hl.
    change (size_base script_config) with 150.
    change canvas_height with 500. lia.
  - apply reachable_second_screen.
  - vm_compute. do 3 right. left. reflexivity.
Defined.

(** ** The level of the next pair *)

(** X16.  In the adaptive phase with a fit that reports success, and with
    non-negative levels, the two lines of the next pair differ by a level
    whose position is within 2 of the position [n] found by lines 152-153.
    For a finite fitted threshold [n] is the first minimum of the float
    distances [|float(level) - alpha|], and the position of the level
    nearest to the threshold (the lowest on a tie) whenever those float
    distances are exact; for an infinite or NaN threshold [n] is 0. *)
Theorem X16_adaptive_level_near_threshold (cfg : Config)
    (MLE_search : Q -> Q -> string -> list Z -> list Q -> list Q -> OptimizeResult)
    (s : State) (a b : Z) :
  let results := MLE_search (Gamma cfg) (Lambda cfg) (typef cfg)
                            (StimLevels cfg) (NumCorrect s) (Total s) in
  StimLevels cfg <> [] ->
  Forall (fun l => 0 <= l) (StimLevels cfg) ->
  Qlt_bool (inject_Z (counter s)) (MinTrials cfg) = false ->
  success results = true ->
  Dist.yields (GetNextLengths cfg MLE_search s) (a, b) ->
  exists n idx : nat,
    nearest_index cfg (x_0 results) = Ok n /\
    Z.abs (Z.of_nat idx - Z.of_nat n) <= 2 /\
    nth_error (StimLevels cfg) idx = Some (Z.abs (a - b)) /\
    (forall alpha, x_0 results = Finite alpha ->
       first_minimiser (float_distance alpha) (StimLevels cfg) n /\
       (exact_distances cfg alpha ->
        first_minimiser (exact_distance alpha) (StimLevels cfg) n)) /\
    ((forall alpha, x_0 results <> Finite alpha) -> n = 0%nat).
Proof.
  intros results Hne Hpos Hphase Hok Hy. subst results.
  unfold GetNextLengths in Hy.
  apply DistFacts.yields_bind in Hy. destruct Hy as [i [[p Hi] Hy]].
  rewrite next_StimIndex_adaptive in Hi by assumption.
  set (fit := x_0 _) in *.
  destruct (nearest_index_spec cfg fit Hne) as [n [E [Hn [Hmin Hspecial]]]].
  rewrite (adaptive_index_unfold cfg fit n E) in Hi.
  apply in_map_iff in Hi. destruct Hi as [k [Ek Hk]].
  assert (Hk' : 0 <= k <= 4) by (simpl in Hk; lia).
  destruct (clamp_index_bounds cfg n k Hn Hk') as [Hb Hd].
  assert (Ei : clamp_index cfg (Z.of_nat n - 2 + k) = i) by congruence.
  rewrite Ei in Hb, Hd. clear Ek Ei Hk Hk' k.
  apply DistFacts.yields_bind in Hy. destruct Hy as [add [Hadd Hy]].
  apply DistFacts.yields_lift in Hadd.
  unfold len_StimLevels in Hb.
  destruct (getitem_in_range (StimLevels cfg) i) as [x [Hx Hnth]]; [lia|].
  rewrite Hx in Hadd. inversion Hadd; subst x.
  rewrite Forall_forall in Hpos.
  pose proof (Hpos add (nth_error_In _ _ Hnth)) as Hge.
  exists n, (Z.to_nat i). split; [exact E|]. split; [lia|].
  split; [|split].
  - rewrite Hnth. f_equal. apply yields_NewLinesLengths in Hy. lia.
  - intros alpha Ha. split; [apply Hmin; exact Ha|].
    intros Hex. apply first_minimiser_exact; [exact Hex | apply Hmin; exact Ha].
  - exact Hspecial.
Qed.

Lemma X16_adaptive_level_near_threshold_witness :
  exists n idx : nat,
    nearest_index script_config (Finite (55 # 4)) = Ok n /\
    Z.abs (Z.of_nat idx - Z.of_nat n) <= 2 /\
    nth_error (StimLevels script_config) idx = Some (Z.abs (150 - 162)) /\
    (forall alpha, Finite (55 # 4) = Finite alpha ->
       first_minimiser (float_distance alpha) (StimLevels script_config) n /\
       (exact_distances script_config alpha ->
        first_minimiser (exact_distance alpha) (StimLevels script_config) n)) /\
    ((forall alpha, Finite (55 # 4) <> Finite alpha) -> n = 0%nat).
Proof.
  apply (X16_adaptive_level_near_threshold script_config
           (converges_to (55 # 4)) (set_counter 9 second_screen) 150 162).
  - discriminate.
  - apply (proj2 (proj2 levels_ok_script_config)).
  - reflexivity.
  - reflexivity.
  - pick_outcome.
Defined.

Lemma where_from_notin (l : list Z) (v : Z) (j : nat) :
  ~ In v l -> where_from j l v = [].
Proof.
  revert j. induction l as [|x t IH]; intros j Hv; simpl; [reflexivity|].
  destruct (Z.eqb_spec x v) as [->|_]; [exfalso; apply Hv; left; reflexivity|].
  apply IH. intros H. apply Hv. right. exact H.
Qed.

Lemma iadd_from_nil (arr : list Q) (d : Q) (j : nat) :
  iadd_from j arr [] d = arr.
Proof.
  revert j. induction arr as [|x t IH]; intros j; simpl; [reflexivity|].
  rewrite IH. reflexivity.
Qed.

(** X17.  When the two lines of the scored pair differ by a value that is
    not one of the levels (for instance when a level is negative, since the
    absolute difference is looked up), the scoring call completes without
    an exception and leaves [Total] and [NumCorrect] exactly as they were:
    the trial is not counted at any level. *)
Theorem X17_unknown_difference_not_counted (cfg : Config) (s : State)
    (la lb : list Z) (a b : Z) (cs : list string) (c : string) :
  lineA_length s = la ++ [a] ->
  lineB_length s = lb ++ [b] ->
  choice s = cs ++ [c] ->
  ~ In (Z.abs (a - b)) (StimLevels cfg) ->
  exists s',
    UpdateResultsVariablesByChoice cfg s = Ok s' /\
    Total s' = Total s /\ NumCorrect s' = NumCorrect s.
Proof.
  intros HA HB Hc Hnot. unfold UpdateResultsVariablesByChoice.
  rewrite HA, HB, !last_item_app. simpl rbind.
  unfold np_where_eq. rewrite where_from_notin by exact Hnot.
  unfold iadd_at. simpl forallb. cbv iota. rewrite !iadd_from_nil.
  simpl rbind. unfold set_Total at 1. simpl choice.
  rewrite Hc, last_item_app. simpl rbind.
  destruct (String.eqb _ c); [|destruct (String.eqb _ _)];
    simpl; eexists; (split; [reflexivity|]); simpl; auto.
Qed.

Lemma X17_unknown_difference_not_counted_witness :
  exists s',
    UpdateResultsVariablesByChoice negative_level_config
      (set_choice ["B"%string]
         (set_widgets_shown true
            (set_lines [147] [150] (blank negative_level_config))))
    = Ok s' /\
    Total s' = [0%Q] /\ NumCorrect s' = [0%Q].
Proof.
  apply (X17_unknown_difference_not_counted negative_level_config
           (set_choice ["B"%string]
              (set_widgets_shown true
                 (set_lines [147] [150] (blank negative_level_config))))
           [] [] 147 150 [] "B"%string).
  - reflexivity.
  - reflexivity.
  - reflexivity.
  - simpl. intros [H | []]. discriminate.
Defined.

Lemma Pr_bind_weighted {A B} (w : Q) (xs : list A) (g : A -> Dist.M B)
    (P : B -> bool) :
  (Dist.Pr (Dist.bind (map (fun x => (w, Ok x)) xs) g) P
   == w * np_sum (map (fun x => Dist.Pr (g x) P) xs))%Q.
Proof.
  induction xs as [|x t IH].
  - simpl. ring.
  - change (Dist.bind (map (fun x => (w, Ok x)) (x :: t)) g)
      with (Dist.scale w (g x) ++ Dist.bind (map (fun x => (w, Ok x)) t) g).
    rewrite Pr_app, Pr_scale, IH. simpl. ring.
Qed.

Lemma Pr_bind_lift_Ok {A B} (x : A) (f : A -> Dist.M B) (P : B -> bool) :
  (Dist.Pr (Dist.bind (Dist.lift (Ok x)) f) P == Dist.Pr (f x) P)%Q.
Proof.
  change (Dist.bind (Dist.lift (Ok x)) f) with (Dist.scale 1 (f x) ++ []).
  rewrite Pr_app, Pr_scale. simpl. ring.
Qed.

Lemma Pr_NewLinesLengths_level (base add l : Z) :
  0 <= add ->
  (Dist.Pr (NewLinesLengths base add) (differs_by l)
   == if add =? l then 1 else 0)%Q.
Proof.
  intros Hadd.
  change (NewLinesLengths base add)
    with [((1 # 2)%Q, Ok (base + add, base));
          ((1 # 2)%Q, Ok (base, base + add))].
  unfold differs_by. cbn [Dist.Pr fst snd].
  replace (Z.abs (base + add - base)) with add by lia.
  replace (Z.abs (base - (base + add))) with add by lia.
  destruct (add =? l); reflexivity.
Qed.

Section LevelDraw.

Variable cfg : Config.

Hypothesis Hpos : Forall (fun l => 0 <= l) (StimLevels cfg).

(** The pair drawn once the index [i] is fixed (lines 165-167). *)
Let pair_at (i : Z) : Dist.M (Z * Z) :=
  size_add <- Dist.lift (getitem (StimLevels cfg) i) ;;
  NewLinesLengths (size_base cfg) size_add.

Lemma level_sum (l : Z) (suf pre : list Z) :
  StimLevels cfg = pre ++ suf ->
  (np_sum (map (fun i => Dist.Pr (pair_at i) (differs_by l))
               (map Z.of_nat (seq (length pre) (length suf))))
   == inject_Z (Z.of_nat (count_occ Z.eq_dec suf l)))%Q.
Proof.
  revert pre. induction suf as [|x t IH]; intros pre E.
  - simpl. reflexivity.
  - assert (Hnth : nth_error (StimLevels cfg) (length pre) = Some x).
    { rewrite E, nth_error_app2, Nat.sub_diag by lia. reflexivity. }
    assert (Hget : getitem (StimLevels cfg) (Z.of_nat (length pre)) = Ok x).
    { destruct (getitem_in_range (StimLevels cfg) (Z.of_nat (length pre)))
        as [y [Hy Hy']].
      - rewrite E, length_app. simpl. lia.
      - rewrite Nat2Z.id in Hy'. congruence. }
    assert (Hx : 0 <= x).
    { rewrite Forall_forall in Hpos. apply Hpos.
      eapply nth_error_In; eauto. }
    simpl length. simpl seq. cbn [map np_sum fold_right].
    fold (np_sum (map (fun i => Dist.Pr (pair_at i) (differs_by l))
                      (map Z.of_nat (seq (S (length pre)) (length t))))).
    replace (S (length pre)) with (length (pre ++ [x]))
      by (rewrite length_app; simpl; lia).
    rewrite (IH (pre ++ [x])) by (rewrite <- app_assoc; exact E).
    unfold pair_at at 1. rewrite Hget, Pr_bind_lift_Ok.
    rewrite Pr_NewLinesLengths_level by exact Hx.
    simpl count_occ.
    destruct (Z.eq_dec x l) as [->|Hne].
    + rewrite Z.eqb_refl, Nat2Z.inj_succ. unfold Z.succ.
      rewrite inject_Z_plus. change (inject_Z 1) with 1%Q. ring.
    + destruct (Z.eqb_spec x l); [contradiction|]. ring.
Qed.

Lemma Pr_uniform_index_level (l : Z) :
  NoDup (StimLevels cfg) ->
  In l (StimLevels cfg) ->
  (Dist.Pr (StimIndex <- random_choice (range (length (StimLevels cfg))) ;;
            pair_at StimIndex) (differs_by l)
   == 1 # Pos.of_nat (length (StimLevels cfg)))%Q.
Proof.
  intros Hnd Hin.
  assert (Hne : range (length (StimLevels cfg)) <> []).
  { destruct (StimLevels cfg); [destruct Hin | discriminate]. }
  replace (random_choice (range (length (StimLevels cfg))))
    with (Dist.uniform (range (length (StimLevels cfg))))
    by (destruct (range (length (StimLevels cfg))); [congruence | reflexivity]).
  unfold Dist.uniform. rewrite Pr_bind_weighted.
  unfold range at 2. rewrite (level_sum l (StimLevels cfg) []) by reflexivity.
  rewrite (proj1 (NoDup_count_occ' Z.eq_dec (StimLevels cfg)) Hnd l Hin).
  change (inject_Z (Z.of_nat 1)) with 1%Q.
  unfold range. rewrite length_map, length_seq. ring.
Qed.

End LevelDraw.

(** X18.  With distinct, non-negative levels, during warm-up
    ([counter < MinTrials]) and whenever the fit does not report success,
    each level is the difference of the next pair with probability exactly
    [1/L]. *)
Theorem X18_random_phase_levels_equally_likely (cfg : Config)
    (MLE_search : Q -> Q -> string -> list Z -> list Q -> list Q -> OptimizeResult)
    (s : State) (l : Z) :
  levels_ok cfg ->
  Qlt_bool (inject_Z (counter s)) (MinTrials cfg) = true \/
  success (MLE_search (Gamma cfg) (Lambda cfg) (typef cfg) (StimLevels cfg)
                      (NumCorrect s) (Total s)) = false ->
  In l (StimLevels cfg) ->
  (Dist.Pr (GetNextLengths cfg MLE_search s) (differs_by l)
   == 1 # Pos.of_nat (length (StimLevels cfg)))%Q.
Proof.
  intros [_ [Hnd Hpos]] Hphase Hin.
  assert (E : next_StimIndex cfg MLE_search s
              = random_choice (range (length (StimLevels cfg)))).
  { unfold next_StimIndex. destruct Hphase as [H | H].
    - rewrite H. reflexivity.
    - destruct (Qlt_bool _ _); [reflexivity|]. rewrite H. reflexivity. }
  unfold GetNextLengths. rewrite E.
  apply (Pr_uniform_index_level cfg Hpos l Hnd Hin).
Qed.

Lemma X18_random_phase_levels_equally_likely_witness :
  (Dist.Pr (GetNextLengths script_config never_converges first_screen)
           (differs_by 7)
   == 1 # Pos.of_nat (length (StimLevels script_config)))%Q.
Proof.
  apply (X18_random_phase_levels_equally_likely script_config
           never_converges first_screen 7).
  - apply levels_ok_script_config.
  - left. reflexivity.
  - apply in_np_arange. lia.
Defined.

(** ** The counts are the tally of the answered trials *)




Section Tally.

Variable cfg : Config.
Variable MLE_search :
  Q -> Q -> string -> list Z -> list Q -> list Q -> OptimizeResult.

Hypothesis Hlevels : levels_ok cfg.




End Tally.



(** ** Presses that record nothing *)

Lemma startup_yields (cfg : Config) (x : Z) (t : list Z) :
  StimLevels cfg = x :: t ->
  Dist.yields (startup cfg)
    (set_widgets_shown true
       (set_lines [size_base cfg + x] [size_base cfg] (blank cfg))).
Proof.
  intros E. unfold startup, InitialiseLines.
  apply DistFacts.yields_bind.
  exists (set_lines [size_base cfg + x] [size_base cfg] (blank cfg)).
  split; [|apply DistFacts.yields_ret; reflexivity].
  apply DistFacts.yields_bind. exists x. split.
  - apply yields_np_random_choice. rewrite E. left. reflexivity.
  - apply DistFacts.yields_bind. exists (size_base cfg + x, size_base cfg).
    split.
    + exists (1 # 2)%Q. left. reflexivity.
    + apply DistFacts.yields_ret. reflexivity.
Qed.

(** X20.  Nothing bounds [root.counter]: with at least one level, for
    every number [N] a state is reachable in which the widgets are still
    shown, no choice has been recorded, nothing was plotted and
    [root.counter >= N]; pressing Next with nothing selected gets there. *)
Theorem X20_counter_unbounded_without_trials (cfg : Config)
    (MLE_search : Q -> Q -> string -> list Z -> list Q -> list Q -> OptimizeResult)
    (N : Z) :
  StimLevels cfg <> [] ->
  exists s,
    reachable cfg MLE_search s /\
    widgets_shown s = true /\ N <= counter s /\
    choice s = [] /\ plots s = [] /\
    Total s = np_zeros (length (StimLevels cfg)).
Proof.
  intros Hne. destruct (StimLevels cfg) as [|x t] eqn:E; [congruence|].
  set (s0 := set_widgets_shown true
               (set_lines [size_base cfg + x] [size_base cfg] (blank cfg))).
  exists (set_counter (counter s0 + Z.of_nat (Z.to_nat N)) s0).
  split.
  - apply reachable_idle_clicks; [|reflexivity | reflexivity].
    apply reachable_start. apply (startup_yields cfg x t E).
  - simpl. rewrite E. repeat split. lia.
Qed.

Lemma X20_counter_unbounded_without_trials_witness :
  exists s,
    reachable script_config never_converges s /\
    widgets_shown s = true /\ 1000 <= counter s /\
    choice s = [] /\ plots s = [] /\
    Total s = np_zeros (length (StimLevels script_config)).
Proof.
  apply (X20_counter_unbounded_without_trials script_config never_converges
           1000).
  discriminate.
Defined.
(** ** Events dispatched while the lines are hidden

    [HideLines] calls [root.update()], which runs the callbacks of the
    events that are waiting, inside the press of Next that is being
    handled. *)

Section Reentrant.

Variable cfg : Config.
Variable MLE_search :
  Q -> Q -> string -> list Z -> list Q -> list Q -> OptimizeResult.

(** Lines 255-283 when the counter has reached [MaxTrials]. *)
Lemma recorded_end (s s' : State) :
  recorded cfg MLE_search s s' ->
  MaxTrials cfg <= counter s ->
  counter s' = counter s /\ choice s' = choice s ++ [Option s] /\
  Option s' = Option s /\
  lineA_length s' = lineA_length s /\ lineB_length s' = lineB_length s /\
  widgets_shown s' = false /\
  length (plots s') = S (length (plots s)).
Proof.
  intros [s1 [HU Hend]] Hge.
  pose proof (Update_Option _ _ _ HU) as Ho. apply Update_fields in HU.
  simpl in HU, Ho.
  destruct HU as [_ [_ [Hc1 [Hch1 [HA1 [HB1 [_ Hp1]]]]]]].
  destruct Hend as [[Hlt _] | [_ ->]]; [lia|].
  simpl. rewrite length_app, Hp1, Nat.add_1_r. repeat split; assumption.
Qed.

(** Lines 255-283 when the counter is below [MaxTrials]. *)
Lemma recorded_next (s s' : State) :
  recorded cfg MLE_search s s' ->
  counter s < MaxTrials cfg ->
  radio_value (Option s) ->
  counter s' = counter s /\ choice s' = choice s ++ [Option s] /\
  Option s' = EmptyString /\
  length (lineA_length s') = S (length (lineA_length s)) /\
  widgets_shown s' = widgets_shown s /\ plots s' = plots s.
Proof.
  intros [s1 [HU Hend]] Hlt Hradio.
  pose proof (Update_Option _ _ _ HU) as Ho. apply Update_fields in HU.
  simpl in HU, Ho.
  destruct HU as [_ [_ [Hc1 [Hch1 [HA1 [_ [Hw1 Hp1]]]]]]].
  destruct Hend as [[_ Hy] | [Hge _]]; [|lia].
  apply yields_PresentNextLines in Hy. destruct Hy as [a [b [_ ->]]].
  autorewrite with fields. simpl.
  rewrite length_app, HA1, Nat.add_1_r. repeat split; try assumption.
  apply Option_deselect_both. simpl. rewrite Ho. exact Hradio.
Qed.

(** A press of Next that finds a second press waiting: the waiting press
    runs lines 241-283 first, then the first press goes on at line 255. *)
Lemma yields_nested_press (s s' : State) :
  Option s <> EmptyString ->
  Dist.yields (NextCallback cfg MLE_search (press_Next no_event no_event) s) s' ->
  exists s2,
    recorded cfg MLE_search (set_counter (counter s + 2) s) s2 /\
    recorded cfg MLE_search s2 s'.
Proof.
  intros Hsel Hy. apply yields_NextCallback_body in Hy.
  destruct Hy as [[E _] | [_ [s2 [H2 Hrec]]]]; [contradiction|].
  exists s2. split; [|exact Hrec].
  unfold HideLines in H2. simpl in H2.
  apply DistFacts.yields_bind in H2. destruct H2 as [s3 [H3 H2]].
  apply DistFacts.yields_ret in H2. subst s3.
  apply yields_NextCallback_body in H3.
  destruct H3 as [[E _] | [_ [s4 [H4 Hrec4]]]]; [contradiction|].
  simpl in H4. apply DistFacts.yields_ret in H4. subst s4.
  replace (set_counter (counter s + 2) s)
    with (set_counter (counter s + 1 + 1) (set_counter (counter s + 1) s));
    [exact Hrec4|].
  unfold set_counter. simpl. f_equal. lia.
Qed.

(** A press of Next that finds a click waiting records the clicked
    value. *)
Lemma yields_pending_click (during : pending) (value : string) (s s' : State) :
  Option s <> EmptyString ->
  (during = click_A no_event /\ value = "A"%string) \/
  (during = click_B no_event /\ value = "B"%string) ->
  Dist.yields (NextCallback cfg MLE_search during s) s' ->
  recorded cfg MLE_search (set_Option value (set_counter (counter s + 1) s)) s'.
Proof.
  intros Hsel Hv Hy. apply yields_NextCallback_body in Hy.
  destruct Hy as [[E _] | [_ [s2 [H2 Hrec]]]]; [contradiction|].
  unfold HideLines in H2.
  destruct Hv as [[-> ->] | [-> ->]]; simpl in H2;
    apply DistFacts.yields_ret in H2; subst s2; exact Hrec.
Qed.

End Reentrant.

(** X21.  A second press of Next that is waiting when [HideLines] calls
    [root.update()] at the end of a session (a reachable state, the
    selection is not empty and [root.counter + 2 >= MaxTrials]): every
    outcome has the counter two higher, the same selection recorded twice
    for the same pair (no new pair was presented), the widgets hidden and
    two more plots. *)
Theorem X21_pending_press_scores_last_pair_twice (cfg : Config)
    (MLE_search : Q -> Q -> string -> list Z -> list Q -> list Q -> OptimizeResult)
    (s s' : State) :
  reachable cfg MLE_search s ->
  Option s <> EmptyString ->
  MaxTrials cfg <= counter s + 2 ->
  Dist.yields (NextCallback cfg MLE_search (press_Next no_event no_event) s) s' ->
  counter s' = counter s + 2 /\
  choice s' = choice s ++ [Option s; Option s] /\
  lineA_length s' = lineA_length s /\ lineB_length s' = lineB_length s /\
  Finished s' /\
  length (plots s') = S (S (length (plots s))).
Proof.
  intros _ Hsel Hge Hy.
  destruct (yields_nested_press cfg MLE_search s s' Hsel Hy) as [s2 [H1 H2]].
  apply recorded_end in H1; [|simpl; exact Hge]. simpl in H1.
  destruct H1 as [Hc [Hch [Ho [HA [HB [Hw Hp]]]]]].
  apply recorded_end in H2; [|lia].
  destruct H2 as [Hc' [Hch' [Ho' [HA' [HB' [Hw' Hp']]]]]].
  unfold Finished. rewrite Hc', Hc, Hch', Hch, Ho, HA', HA, HB', HB, Hp', Hp.
  rewrite <- app_assoc. simpl. repeat split; assumption.
Qed.

Lemma X21_pending_press_scores_last_pair_twice_witness :
  exists s',
    Dist.yields
      (NextCallback script_config never_converges
         (press_Next no_event no_event)
         (set_Option "A" (set_counter 28 first_screen))) s' /\
    counter s' = 28 + 2 /\
    choice s' = [] ++ ["A"%string; "A"%string] /\
    lineA_length s' = [160] /\ lineB_length s' = [150] /\
    Finished s' /\
    length (plots s') = 2%nat.
Proof.
  eexists. split; [pick_outcome|].
  apply (X21_pending_press_scores_last_pair_twice script_config
           never_converges (set_Option "A" (set_counter 28 first_screen))).
  - apply reachable_step with (s := set_counter 28 first_screen).
    + apply (reachable_idle_clicks script_config never_converges
               first_screen 28);
        [apply reachable_first_screen | reflexivity | reflexivity].
    + apply step_select; [reflexivity | left; reflexivity].
  - discriminate.
  - vm_compute. discriminate.
  - pick_outcome.
Defined.

(** X22.  A second press of Next that is waiting when [HideLines] calls
    [root.update()] in the middle of a session (a reachable state, a
    radiobutton is selected and [root.counter + 2 < MaxTrials]): every
    outcome has the counter two higher and two more pairs; the selection is recorded for the pair on
    screen, and the empty string is recorded for the pair that the waiting
    press presented, which nobody answered. *)
Theorem X22_pending_press_records_empty_choice (cfg : Config)
    (MLE_search : Q -> Q -> string -> list Z -> list Q -> list Q -> OptimizeResult)
    (s s' : State) :
  reachable cfg MLE_search s ->
  Option s = "A"%string \/ Option s = "B"%string ->
  counter s + 2 < MaxTrials cfg ->
  Dist.yields (NextCallback cfg MLE_search (press_Next no_event no_event) s) s' ->
  counter s' = counter s + 2 /\
  choice s' = choice s ++ [Option s; EmptyString] /\
  length (lineA_length s') = S (S (length (lineA_length s))) /\
  Option s' = EmptyString /\
  widgets_shown s' = widgets_shown s /\ plots s' = plots s.
Proof.
  intros _ Hsel Hlt Hy.
  assert (Hne : Option s <> EmptyString)
    by (destruct Hsel as [E | E]; rewrite E; discriminate).
  destruct (yields_nested_press cfg MLE_search s s' Hne Hy) as [s2 [H1 H2]].
  apply recorded_next in H1;
    [|simpl; exact Hlt | simpl; right; exact Hsel]. simpl in H1.
  destruct H1 as [Hc [Hch [Ho [HA [Hw Hp]]]]].
  apply recorded_next in H2; [|lia | left; exact Ho].
  destruct H2 as [Hc' [Hch' [Ho' [HA' [Hw' Hp']]]]].
  rewrite Hc', Hc, Hch', Hch, Ho, HA', HA, Hw', Hw, Hp', Hp.
  rewrite <- app_assoc. simpl. repeat split; assumption.
Qed.

Lemma X22_pending_press_records_empty_choice_witness :
  exists s',
    Dist.yields
      (NextCallback script_config never_converges
         (press_Next no_event no_event) (set_Option "A" first_screen)) s' /\
    counter s' = 0 + 2 /\
    choice s' = [] ++ ["A"%string; EmptyString] /\
    length (lineA_length s') = 3%nat /\
    Option s' = EmptyString /\
    widgets_shown s' = true /\ plots s' = [].
Proof.
  eexists. split; [pick_outcome|].
  apply (X22_pending_press_records_empty_choice script_config
           never_converges (set_Option "A" first_screen)).
  - apply reachable_step with (s := first_screen).
    + apply reachable_first_screen.
    + apply step_select; [reflexivity | left; reflexivity].
  - left. reflexivity.
  - reflexivity.
  - pick_outcome.
Defined.

(** X23.  A click on a radiobutton that is waiting when [HideLines] calls
    [root.update()] changes what is recorded: line 244 tests the selection
    made before the press, line 255 reads the variable again and records
    the value of the click.  The counter is one higher. *)
Theorem X23_pending_click_is_recorded (cfg : Config)
    (MLE_search : Q -> Q -> string -> list Z -> list Q -> list Q -> OptimizeResult)
    (during : pending) (value : string) (s s' : State) :
  Option s <> EmptyString ->
  (during = click_A no_event /\ value = "A"%string) \/
  (during = click_B no_event /\ value = "B"%string) ->
  Dist.yields (NextCallback cfg MLE_search during s) s' ->
  counter s' = counter s + 1 /\
  choice s' = choice s ++ [value].
Proof.
  intros Hsel Hv Hy.
  apply (yields_pending_click cfg MLE_search during value s s' Hsel Hv) in Hy.
  apply recorded_fields in Hy. simpl in Hy.
  destruct Hy as [Hc [Hch _]]. split; assumption.
Qed.

Lemma X23_pending_click_is_recorded_witness :
  exists s',
    Dist.yields
      (NextCallback script_config never_converges (click_B no_event)
         (set_Option "A" first_screen)) s' /\
    counter s' = 0 + 1 /\
    choice s' = [] ++ ["B"%string].
Proof.
  eexists. split; [pick_outcome|].
  apply (X23_pending_click_is_recorded script_config never_converges
           (click_B no_event) "B" (set_Option "A" first_screen)).
  - discriminate.
  - right. split; reflexivity.
  - pick_outcome.
Defined.

